(** * Soprano NMR plotting helpers: label layout and contour synthesis

    A shallow embedding of [soprano/calculate/nmr/utils.py]:
    the force/energy model used to spread plot annotations
    ([get_force_matrix], [get_total_forces], [get_energy]), the driver
    [optimise_annotations], and the contour synthesiser
    ([lorentzian], [gaussian], [generate_contour_map]).

    Numbers.  NumPy's float64 values are read as real numbers: every
    arithmetic expression of the source is kept with its shape and its
    order of operations, and is evaluated in [R].  Rounding, [nan] and
    [inf] are outside the model; where the source divides, the divisor
    is named so that it can be inspected.

    Arrays.  A one-dimensional array is a [list R], a two-dimensional
    array a list of rows, a boolean mask a list of rows of [bool]. *)

From Stdlib Require Import Reals Lra Lia List Bool Arith ZArith.
From Stdlib Require Import String Ascii Permutation Sorted.
Import ListNotations.
Open Scope R_scope.

(** ** NumPy operations used by the module *)

Module Np.

Definition vec := list R.
Definition matrix := list (list R).
Definition mask := list (list bool).

(** [np.zeros((n, m))] *)
Definition zeros (n m : nat) : matrix := repeat (repeat 0 m) n.

(** [np.eye(n, dtype=bool)] *)
Definition eye (n : nat) : mask :=
  map (fun i => map (fun j => Nat.eqb i j) (seq 0 n)) (seq 0 n).

(** [a[:, np.newaxis] - a[np.newaxis, :]] *)
Definition outer_sub (a : vec) : matrix :=
  map (fun ai => map (fun aj => ai - aj) a) a.

(** Elementwise combination of two arrays of one shape. *)
Fixpoint zip_with {A B C} (f : A -> B -> C) (l : list A) (r : list B)
  : list C :=
  match l, r with
  | a :: l', b :: r' => f a b :: zip_with f l' r'
  | _, _ => []
  end.

Definition zip_with2 {A B C} (f : A -> B -> C)
  (l : list (list A)) (r : list (list B)) : list (list C) :=
  zip_with (zip_with f) l r.

(** [~m] and [np.logical_and(m1, m2)] *)
Definition logical_not (m : mask) : mask := map (map negb) m.
Definition logical_and (m1 m2 : mask) : mask := zip_with2 andb m1 m2.

(** [np.abs(d) > t], elementwise *)
Definition gtb (a b : R) : bool := if Rgt_dec a b then true else false.
Definition abs_gt (d : matrix) (t : R) : mask :=
  map (map (fun x => gtb (Rabs x) t)) d.

(** [np.sum] of a one-dimensional array, and of a boolean mask. *)
Definition sum (v : vec) : R := fold_right Rplus 0 v.
Definition count_row (m : list bool) : nat :=
  List.length (filter (fun b => b) m).
Definition count (m : mask) : nat :=
  fold_right (fun row acc => (count_row row + acc)%nat) 0%nat m.

(** [np.sum(F, axis=1)] *)
Definition sum_axis1 (F : matrix) : vec := map sum F.

(** [s * F] for a scalar [s] *)
Definition scale (s : R) (F : matrix) : matrix := map (map (Rmult s)) F.

(** [a - b] for two one-dimensional arrays of the same length. *)
Definition sub (a b : vec) : vec := zip_with Rminus a b.

(** [F[m] += g(D[m])]: the entries selected by [m] are updated in
    place, each from the entry of [D] at the same index. *)
Definition masked_add (g : R -> R) (m : mask) (D F : matrix) : matrix :=
  zip_with2 (fun (b : bool) (fd : R * R) =>
               if b then fst fd + g (snd fd) else fst fd)
            m (zip_with2 pair F D).

(** [F[m] = vals]: the selected entries, visited in row-major order,
    receive the values of [vals] one after the other.  The function
    returns the new row and the values not yet used.  NumPy refuses a
    [vals] whose length is not the number of selected entries; the
    callers below always pass exactly that many. *)
Fixpoint assign_row (m : list bool) (row : list R) (vals : list R)
  : list R * list R :=
  match m, row with
  | b :: m', x :: row' =>
      if b then
        match vals with
        | v :: vs => let (r, rest) := assign_row m' row' vs in (v :: r, rest)
        | [] => let (r, rest) := assign_row m' row' [] in (x :: r, rest)
        end
      else let (r, rest) := assign_row m' row' vals in (x :: r, rest)
  | _, _ => (row, vals)
  end.

Fixpoint masked_assign (m : mask) (F : matrix) (vals : list R) : matrix :=
  match m, F with
  | mr :: m', row :: F' =>
      let (r, rest) := assign_row mr row vals in
      r :: masked_assign m' F' rest
  | _, _ => F
  end.

(** The process-wide generator behind [np.random.randn]: the sequence
    of standard normal draws still to come. *)
Definition rng := nat -> R.

(** [np.random.randn(n)]: the next [n] draws, and the generator after. *)
Definition randn (g : rng) (n : nat) : vec * rng :=
  (map g (seq 0 n), fun i => g (n + i)%nat).

(** [a[idx]] for an index array [idx] *)
Definition take (a : vec) (idx : list nat) : vec :=
  map (fun i => nth i a 0) idx.

(** [np.max], [np.min] of a non-empty array. *)
Definition max (a : vec) : R :=
  match a with
  | [] => 0
  | x :: a' => fold_left Rmax a' x
  end.
Definition min (a : vec) : R :=
  match a with
  | [] => 0
  | x :: a' => fold_left Rmin a' x
  end.

(** Entry [(i, j)] of a matrix. *)
Definition entry (F : matrix) (i j : nat) : R := nth j (nth i F []) 0.

End Np.

(** ** The force-field model *)

(** The gap below which two positions count as coincident. *)
Definition gap_eps : R := 1e-8.

Section ForceField.

Variables (positions positions_original : Np.vec) (C k : R).

Definition displacement_matrix : Np.matrix := Np.outer_sub positions.

Definition diag_mask : Np.mask :=
  Np.eye (List.length displacement_matrix).

Definition non_zero_displacements : Np.mask :=
  Np.abs_gt displacement_matrix gap_eps.

(** [off_diag_mask] after its reassignment on line 62. *)
Definition off_diag_mask : Np.mask :=
  Np.logical_and (Np.logical_not diag_mask) non_zero_displacements.

(** [Fmat] after the repulsion update of line 65. *)
Definition Fmat_repulsion : Np.matrix :=
  Np.masked_add (fun d => C * d / (Rabs d) ^ 4)
    off_diag_mask displacement_matrix
    (Np.zeros (List.length positions) (List.length positions)).

(** Line 68: built from the [off_diag_mask] of line 62. *)
Definition zero_off_diag_mask : Np.mask :=
  Np.logical_and off_diag_mask (Np.logical_not non_zero_displacements).

(** Lines 70-71: the random tie-break, consuming the generator. *)
Definition Fmat_random (g : Np.rng) : Np.matrix * Np.rng :=
  if (0 <? Np.count zero_off_diag_mask)%nat then
    let (draws, g') := Np.randn g (Np.count zero_off_diag_mask) in
    (Np.masked_assign zero_off_diag_mask Fmat_repulsion
       (map (fun v => v * C * (1 / 0.05 ^ 2)) draws), g')
  else (Fmat_repulsion, g).

(** [get_force_matrix]: the matrix returned, and the generator after
    the call. *)
Definition get_force_matrix (g : Np.rng) : Np.matrix * Np.rng :=
  let (Fmat, g') := Fmat_random g in
  (Np.masked_assign diag_mask Fmat
     (map (Rmult (-2 * k)) (Np.sub positions positions_original)), g').

(** [get_total_forces], as bound at import time: the second of the two
    definitions of that name (lines 97-117) replaces the first. *)
Definition get_total_forces (g : Np.rng) : Np.vec * Np.rng :=
  let sign := -1 in
  let (F, g') := get_force_matrix g in
  (Np.sum_axis1 (Np.scale sign F), g').

(** [get_energy]: the two nested [for] loops over [range], then the
    spring term. *)
Definition coulomb_pair (i j : nat) (acc : R) : R :=
  if Rgt_dec (Rabs (nth i positions 0 - nth j positions 0)) gap_eps
  then acc + C / (Rabs (nth i positions 0 - nth j positions 0)) ^ 2
  else acc.

Definition coulomb_inner (i : nat) (acc : R) : R :=
  fold_left (fun a j => coulomb_pair i j a)
    (seq (i + 1) (List.length positions - (i + 1))) acc.

Definition coulomb_energy : R :=
  fold_left (fun a i => coulomb_inner i a)
    (seq 0 (List.length positions)) 0.

Definition spring_energy : R :=
  0.5 * k * Np.sum (map (fun d => d ^ 2)
                      (Np.sub positions positions_original)).

Definition get_energy : R := spring_energy + coulomb_energy.

End ForceField.

(** The energy as the prose describes it: one term [C / |p_i - p_j|^2]
    for every unordered pair [i < j] whose gap exceeds the threshold,
    plus half of [k] times the sum of squared displacements. *)
Definition pair_term (positions : Np.vec) (C : R) (ij : nat * nat) : R :=
  let d := Rabs (nth (fst ij) positions 0 - nth (snd ij) positions 0) in
  if Rgt_dec d gap_eps then C / d ^ 2 else 0.

Definition unordered_pairs (n : nat) : list (nat * nat) :=
  filter (fun ij => (fst ij <? snd ij)%nat)
    (list_prod (seq 0 n) (seq 0 n)).

Definition energy_formula (positions positions_original : Np.vec) (C k : R)
  : R :=
  Np.sum (map (pair_term positions C)
            (unordered_pairs (List.length positions)))
  + 1 / 2 * k * Np.sum (map (fun po => (fst po - snd po) ^ 2)
                          (combine positions positions_original)).

(** [positions] with entry [i] replaced by [x]: the energy as a function
    of one coordinate. *)
Fixpoint set_nth (i : nat) (x : R) (v : Np.vec) : Np.vec :=
  match v, i with
  | [], _ => []
  | _ :: v', O => x :: v'
  | y :: v', S i' => y :: set_nth i' x v'
  end.

(** One repulsion term of the energy, seen from a moving label at [x]
    with the other label fixed at [c]; and the slope each unordered pair
    contributes to the partial derivative along coordinate [i]. *)
Definition repulsion_term (C c x : R) : R :=
  if Rgt_dec (Rabs (x - c)) gap_eps then C / Rabs (x - c) ^ 2 else 0.

Definition repulsion_slope (positions : Np.vec) (C : R) (i j : nat) : R :=
  -2 * C * (nth i positions 0 - nth j positions 0)
  / Rabs (nth i positions 0 - nth j positions 0) ^ 4.

Definition pair_slope (positions : Np.vec) (C : R) (i : nat)
  (ab : nat * nat) : R :=
  if Nat.eqb (fst ab) i then repulsion_slope positions C i (snd ab)
  else if Nat.eqb (snd ab) i then repulsion_slope positions C i (fst ab)
  else 0.

(** Entry [(i, j)] of the force matrix in closed form. *)
Definition force_entry (positions positions_original : Np.vec) (C k : R)
  (i j : nat) : R :=
  if Nat.eqb i j
  then -2 * k * (nth i positions 0 - nth i positions_original 0)
  else if Np.gtb (Rabs (nth i positions 0 - nth j positions 0)) gap_eps
       then C * (nth i positions 0 - nth j positions 0)
            / Rabs (nth i positions 0 - nth j positions 0) ^ 4
       else 0.

(** The energy as a function of coordinate [i] alone, and what it means
    for a vector [F] to be minus the gradient of the energy at
    [positions]: the partial derivative along each coordinate [i] is
    minus entry [i] of [F]. *)
Definition energy_along (positions positions_original : Np.vec) (C k : R)
  (i : nat) : R -> R :=
  fun x => get_energy (set_nth i x positions) positions_original C k.

Definition negative_gradient (F positions positions_original : Np.vec)
  (C k : R) : Prop :=
  forall i, (i < List.length positions)%nat ->
    derivable_pt_lim (energy_along positions positions_original C k i)
      (nth i positions 0) (- nth i F 0).

(** ** [np.argsort] *)

(** Indices that sort the keys in ascending order.  Keys are inserted
    from the right, each one in front of the first key not below it, so
    equal keys keep their relative order.  NumPy promises no particular
    order among equal keys; the facts about the inverse permutation
    below ([argsort_inverts], [take_order_inverse]) hold for every
    permutation of the indices, whatever the order among ties. *)
Section Argsort.

Context {A : Type} (leb : A -> A -> bool).

Fixpoint insert_key (p : A * nat) (l : list (A * nat)) : list (A * nat) :=
  match l with
  | [] => [p]
  | q :: l' =>
      if leb (fst p) (fst q) then p :: l else q :: insert_key p l'
  end.

Definition sort_keys (keys : list A) : list (A * nat) :=
  fold_right insert_key [] (combine keys (seq 0 (List.length keys))).

Definition argsort (keys : list A) : list nat := map snd (sort_keys keys).

End Argsort.

Definition Rleb (a b : R) : bool := if Rle_dec a b then true else false.

(** The order in which [argsort] leaves indexed natural-number keys. *)
Definition key_le (p q : nat * nat) : Prop := (fst p <= fst q)%nat.

(** ** The layout optimiser *)

(** The entries of the [constraints] list handed to the minimiser. *)
Inductive constraint : Type :=
| EqConstraint (f : Np.vec -> R)
| IneqConstraint (f : Np.vec -> Np.vec).

Section Optimise.

(** [scipy.optimize.minimize], which is not part of this module: it
    receives the objective, its gradient callback (which may consume the
    random generator), the starting point, the constraints, [maxiter]
    and [tol], and returns [res.x] with the generator after the run. *)
Variable minimize :
  Np.rng -> (Np.vec -> R) -> (Np.rng -> Np.vec -> Np.vec * Np.rng) ->
  Np.vec -> list constraint -> Z -> R -> Np.vec * Np.rng.

(** The divisor of the normalisation on lines 172-175. *)
Definition original_range (positions_original : Np.vec) : R :=
  Np.max positions_original - Np.min positions_original.

Definition optimise_annotations (g : Np.rng) (positions : Np.vec)
  (max_iters : Z) (C k ftol : R) : Np.vec * Np.rng :=
  if (List.length positions <? 3)%nat then (positions, g)
  else
    let order := argsort Rleb positions in
    let inverted_order := argsort Nat.leb order in
    let positions := Np.take positions order in
    let positions_original := positions in
    let min_pos := Np.min positions_original in
    let positions :=
      map (fun p => (p - Np.min positions_original)
                    / original_range positions_original) positions in
    let positions_original' :=
      map (fun p => (p - min_pos) / original_range positions_original)
        positions_original in
    let (res_x, g') :=
      minimize g
        (fun x => get_energy x positions_original' C k)
        (fun g x => get_total_forces x positions_original' C k g)
        positions
        [ EqConstraint (fun x => nth 0 x 0 - nth 0 positions_original' 0);
          EqConstraint (fun x => last x 0 - last positions_original' 0);
          IneqConstraint (fun x => x);
          IneqConstraint (fun x => map (fun xi => 1 - xi) x) ]
        max_iters ftol in
    let new_pos_frac := res_x in
    let new_pos :=
      map (fun p => p * original_range positions_original + min_pos)
        new_pos_frac in
    (Np.take new_pos inverted_order, g').

(** Names for two intermediate values of the body above, used to state
    its properties: the sorted positions of line 167, and the result of
    the call on lines 177-193 for given sorted positions. *)
Definition sorted_positions (positions : Np.vec) : Np.vec :=
  Np.take positions (argsort Rleb positions).

Definition normalised (sorted : Np.vec) : Np.vec :=
  map (fun p => (p - Np.min sorted) / original_range sorted) sorted.

Definition minimiser_result (g : Np.rng) (sorted : Np.vec)
  (max_iters : Z) (C k ftol : R) : Np.vec * Np.rng :=
  minimize g
    (fun x => get_energy x (normalised sorted) C k)
    (fun g x => get_total_forces x (normalised sorted) C k g)
    (normalised sorted)
    [ EqConstraint (fun x => nth 0 x 0 - nth 0 (normalised sorted) 0);
      EqConstraint (fun x => last x 0 - last (normalised sorted) 0);
      IneqConstraint (fun x => x);
      IneqConstraint (fun x => map (fun xi => 1 - xi) x) ]
    max_iters ftol.

End Optimise.

(** ** Peaks and contour synthesis *)

Module Peak2D.
Record t : Type := mk {
  x : R;
  y : R;
  xlabel : string;
  ylabel : string;
  correlation_strength : R;
  color : string;
  idx_x : option Z;
  idx_y : option Z
}.
End Peak2D.

(** Exceptions, and the outcome of a call that may raise. *)
Inductive exn : Type := ValueError (msg : string).

Inductive outcome (A : Type) : Type :=
| Returns (a : A)
| Raises (e : exn).
Arguments Returns {A} a.
Arguments Raises {A} e.

Definition bind {A B} (o : outcome A) (f : A -> outcome B) : outcome B :=
  match o with
  | Returns a => f a
  | Raises e => Raises e
  end.

Notation "x <- e1 ;; e2" := (bind e1 (fun x => e2))
  (at level 61, e1 at next level, right associativity).

(** [str.lower], on ASCII text. *)
Definition lower_ascii (c : ascii) : ascii :=
  let n := nat_of_ascii c in
  if ((65 <=? n) && (n <=? 90))%nat then ascii_of_nat (n + 32) else c.

Fixpoint lower (s : string) : string :=
  match s with
  | EmptyString => EmptyString
  | String c s' => String (lower_ascii c) (lower s')
  end.

(** The builtins [min] and [max] over a generator: an empty one raises. *)
Definition py_min (l : list R) : outcome R :=
  match l with
  | [] => Raises (ValueError "min() arg is an empty sequence")
  | a :: l' => Returns (fold_left Rmin l' a)
  end.

Definition py_max (l : list R) : outcome R :=
  match l with
  | [] => Raises (ValueError "max() arg is an empty sequence")
  | a :: l' => Returns (fold_left Rmax l' a)
  end.

(** [np.linspace(start, stop, num)]: [num] evenly spaced samples, the
    last one set to [stop] when there are at least two; a negative
    [num] is refused. *)
Definition set_last (v : Np.vec) (x : R) : Np.vec := removelast v ++ [x].

Definition linspace (start stop : R) (num : Z) : outcome Np.vec :=
  if (num <? 0)%Z then
    Raises (ValueError "Number of samples must be non-negative.")
  else
    let n := Z.to_nat num in
    let div := (n - 1)%nat in
    let delta := stop - start in
    let y := map INR (seq 0 n) in
    let y := if (0 <? div)%nat
             then map (fun t => t * (delta / INR div)) y
             else map (fun t => t * delta) y in
    let y := map (fun t => t + start) y in
    Returns (if (1 <? n)%nat then set_last y stop else y).

(** [np.meshgrid(x, y)] and [np.zeros_like]. *)
Definition meshgrid (xs ys : Np.vec) : Np.matrix * Np.matrix :=
  (repeat xs (List.length ys),
   map (fun yi => repeat yi (List.length xs)) ys).

Definition zeros_like (X : Np.matrix) : Np.matrix :=
  map (map (fun _ => 0)) X.

Definition lorentzian (X : Np.matrix) (x0 : R) (Y : Np.matrix) (y0 : R)
  (x_broadening y_broadening : R) : Np.matrix :=
  Np.zip_with2
    (fun x y => exp (- ((x - x0) ^ 2 / (2 * x_broadening ^ 2)
                        + (y - y0) ^ 2 / (2 * y_broadening ^ 2))))
    X Y.

Definition gaussian (X : Np.matrix) (x0 : R) (Y : Np.matrix) (y0 : R)
  (x_broadening y_broadening : R) : Np.matrix :=
  Np.zip_with2
    (fun x y => exp (- ((x - x0) ^ 2 / (2 * x_broadening ^ 2)
                        + (y - y0) ^ 2 / (2 * y_broadening ^ 2))))
    X Y.

(** [Z += strength * K] *)
Definition add_scaled (Z : Np.matrix) (strength : R) (K : Np.matrix)
  : Np.matrix :=
  Np.zip_with2 (fun z v => z + strength * v) Z K.

Section Contour.

Variables (broadening : string) (X Y : Np.matrix)
          (x_broadening y_broadening : R).

(** The [for peak in peaks] loop of lines 351-358. *)
Fixpoint add_peaks (peaks : list Peak2D.t) (Z : Np.matrix)
  : outcome Np.matrix :=
  match peaks with
  | [] => Returns Z
  | peak :: rest =>
      let x0 := Peak2D.x peak in
      let y0 := Peak2D.y peak in
      let strength := Peak2D.correlation_strength peak in
      if String.eqb broadening "lorentzian" then
        add_peaks rest
          (add_scaled Z strength
             (lorentzian X x0 Y y0 x_broadening y_broadening))
      else if String.eqb broadening "gaussian" then
        add_peaks rest
          (add_scaled Z strength
             (gaussian X x0 Y y0 x_broadening y_broadening))
      else
        Raises (ValueError
                  ("Unknown broadening function: " ++ broadening))
  end.

End Contour.

Definition limits (given : option (R * R)) (coords : list R)
  : outcome (R * R) :=
  match given with
  | None =>
      lo <- py_min coords ;;
      hi <- py_max coords ;;
      Returns (lo, hi)
  | Some lims => Returns lims
  end.

(** The bounds the prose names: the supplied limits when there are any,
    otherwise the least and greatest peak coordinate. *)
Definition bounds_from (given : option (R * R)) (coords : list R)
  (lo hi : R) : Prop :=
  match given with
  | Some lims => lims = (lo, hi)
  | None => coords <> [] /\ lo = Np.min coords /\ hi = Np.max coords
  end.

Definition generate_contour_map (peaks : list Peak2D.t) (grid_size : Z)
  (broadening : string) (x_broadening y_broadening : R)
  (xlims ylims : option (R * R))
  : outcome (Np.matrix * Np.matrix * Np.matrix) :=
  let broadening := lower broadening in
  xl <- limits xlims (map Peak2D.x peaks) ;;
  yl <- limits ylims (map Peak2D.y peaks) ;;
  let (x_min, x_max) := xl in
  let (y_min, y_max) := yl in
  xs <- linspace (x_min - 5 * x_broadening) (x_max + 5 * x_broadening)
          grid_size ;;
  ys <- linspace (y_min - 5 * y_broadening) (y_max + 5 * y_broadening)
          grid_size ;;
  let (X, Y) := meshgrid xs ys in
  let Z := zeros_like X in
  Z <- add_peaks broadening X Y x_broadening y_broadening peaks Z ;;
  Returns (X, Y, Z).

(** ** Peak equivalence *)

(** [a < b] on floats, as a boolean. *)
Definition Rltb (a b : R) : bool := if Rlt_dec a b then true else false.

(** [Peak2D.equivalent_to].  The keyword arguments are passed
    explicitly; their defaults are [0.005], [0.005], [0.1] and [False]. *)
Definition equivalent_to (self other : Peak2D.t) (xtol ytol corr_tol : R)
  (ignore_correlation_strength : bool) : bool :=
  let x_match := Rltb (Rabs (Peak2D.x self - Peak2D.x other)) xtol in
  let y_match := Rltb (Rabs (Peak2D.y self - Peak2D.y other)) ytol in
  let corr_match :=
    if ignore_correlation_strength then true
    else Rltb (Rabs (Peak2D.correlation_strength self
                     - Peak2D.correlation_strength other)) corr_tol in
  x_match && y_match && corr_match.

(** ** Notions used to state further properties *)

(** The order in which [argsort] leaves indexed real keys. *)
Definition key_Rle (p q : R * nat) : Prop := fst p <= fst q.

(** The [constraints] list of lines 186-192, for given normalised
    originals, and what the minimiser means by it: an equality
    constraint asks for the value [0], an inequality constraint for
    values that are not negative. *)
Definition layout_constraints (positions_original : Np.vec)
  : list constraint :=
  [ EqConstraint (fun x => nth 0 x 0 - nth 0 positions_original 0);
    EqConstraint (fun x => last x 0 - last positions_original 0);
    IneqConstraint (fun x => x);
    IneqConstraint (fun x => map (fun xi => 1 - xi) x) ].

Definition satisfied (x : Np.vec) (c : constraint) : Prop :=
  match c with
  | EqConstraint f => f x = 0
  | IneqConstraint f => Forall (fun v => 0 <= v) (f x)
  end.

(** The broadening kernel at one grid point, and the intensity a peak
    list produces there. *)
Definition kernel_at (x0 y0 x_broadening y_broadening x y : R) : R :=
  exp (- ((x - x0) ^ 2 / (2 * x_broadening ^ 2)
          + (y - y0) ^ 2 / (2 * y_broadening ^ 2))).

Definition intensity_at (peaks : list Peak2D.t)
  (x_broadening y_broadening x y : R) : R :=
  Np.sum (map (fun peak =>
                 Peak2D.correlation_strength peak
                 * kernel_at (Peak2D.x peak) (Peak2D.y peak)
                     x_broadening y_broadening x y)
            peaks).

(** A grid of [rows] rows with [cols] entries each. *)
Definition has_shape {A} (M : list (list A)) (rows cols : nat) : Prop :=
  List.length M = rows /\ Forall (fun row => List.length row = cols) M.

(** * Properties *)

(** ** Lists and arrays *)

Section ArrayFacts.

Import Np.

Lemma zip_with_length {A B C} (f : A -> B -> C) l r :
  List.length (zip_with f l r) = Nat.min (List.length l) (List.length r).
Proof.
  revert r; induction l as [|a l IH]; intros [|b r]; simpl; auto.
Qed.

Lemma nth_zip_with {A B C} (f : A -> B -> C) l r i da db dc :
  (i < List.length l)%nat -> (i < List.length r)%nat ->
  nth i (zip_with f l r) dc = f (nth i l da) (nth i r db).
Proof.
  revert r i; induction l as [|a l IH]; intros [|b r] [|i]; simpl;
    intros; try lia; auto.
  apply IH; lia.
Qed.

Lemma nth_map_seq {A} (f : nat -> A) s n i d :
  (i < n)%nat -> nth i (map f (seq s n)) d = f (s + i)%nat.
Proof.
  intros Hi.
  rewrite (nth_indep _ d (f 0%nat))
    by (rewrite length_map, length_seq; lia).
  rewrite map_nth, seq_nth; auto.
Qed.

Lemma nth_map_in {A B} (f : A -> B) l i da db :
  (i < List.length l)%nat -> nth i (map f l) db = f (nth i l da).
Proof.
  revert i; induction l as [|a l IH]; intros [|i]; simpl; intros; try lia; auto.
  apply IH; lia.
Qed.

Lemma sum_scale s v : sum (map (Rmult s) v) = s * sum v.
Proof.
  induction v as [|a v IH]; simpl; [lra | rewrite IH; lra].
Qed.

Lemma sum_nonneg v : Forall (fun a => 0 <= a) v -> 0 <= sum v.
Proof.
  induction 1; simpl; lra.
Qed.

Lemma sum_app u v : sum (u ++ v) = sum u + sum v.
Proof.
  induction u as [|a u IH]; simpl; [lra | rewrite IH; lra].
Qed.

(** A mask conjoined with the complement of one of its own conjuncts
    selects nothing. *)
Lemma count_row_contradictory (a b : list bool) :
  count_row (zip_with andb (zip_with andb a b) (map negb b)) = 0%nat.
Proof.
  revert b; induction a as [|x a IH]; intros [|y b]; simpl; auto.
  unfold count_row in *; simpl.
  destruct x, y; simpl; apply IH.
Qed.

Lemma count_contradictory (a b : mask) :
  count (logical_and (logical_and a b) (logical_not b)) = 0%nat.
Proof.
  unfold logical_and, logical_not, zip_with2.
  revert b; induction a as [|x a IH]; intros [|y b]; simpl; auto.
  rewrite count_row_contradictory, IH; reflexivity.
Qed.

Lemma nth_set_nth i j x v :
  (i < List.length v)%nat ->
  nth j (set_nth i x v) 0 = if Nat.eqb i j then x else nth j v 0.
Proof.
  revert i j; induction v as [|a v IH]; intros [|i] [|j]; simpl; intros;
    try lia; auto.
  apply IH; lia.
Qed.

Lemma set_nth_length i x v : List.length (set_nth i x v) = List.length v.
Proof.
  revert i; induction v as [|a v IH]; intros [|i]; simpl; auto.
Qed.

(** Assigning through one row of the identity mask. *)
Lemma assign_row_before i s m row vals :
  (i < s)%nat -> List.length row = m ->
  assign_row (map (Nat.eqb i) (seq s m)) row vals = (row, vals).
Proof.
  revert s row; induction m as [|m IH]; intros s [|x row] Hi Hl;
    simpl in *; try discriminate; auto.
  destruct (Nat.eqb_spec i s); [lia|].
  rewrite IH by lia. reflexivity.
Qed.

Lemma assign_row_diag i s m row v vals :
  (s <= i < s + m)%nat -> List.length row = m ->
  assign_row (map (Nat.eqb i) (seq s m)) row (v :: vals)
  = (set_nth (i - s) v row, vals).
Proof.
  revert s row; induction m as [|m IH]; intros s [|x row] Hi Hl;
    simpl in *; try discriminate; try lia.
  destruct (Nat.eqb_spec i s) as [->|Hne].
  - rewrite assign_row_before by lia.
    rewrite Nat.sub_diag. reflexivity.
  - rewrite IH by lia.
    replace (i - s)%nat with (S (i - S s)) by lia. reflexivity.
Qed.

Lemma masked_assign_eye_rows n s m F vals i :
  (s + m <= n)%nat -> List.length F = m -> List.length vals = m ->
  Forall (fun row => List.length row = n) F ->
  (i < m)%nat ->
  nth i (masked_assign
           (map (fun r => map (Nat.eqb r) (seq 0 n)) (seq s m)) F vals) []
  = set_nth (s + i) (nth i vals 0) (nth i F []).
Proof.
  revert s F vals i; induction m as [|m IH];
    intros s [|row F] [|v vals] i Hs HF Hv Hall Hi;
    simpl in *; try discriminate; try lia.
  inversion Hall as [|? ? Hrow Hall']; subst.
  rewrite assign_row_diag by lia.
  destruct i as [|i]; simpl.
  - rewrite Nat.sub_0_r, Nat.add_0_r. reflexivity.
  - rewrite IH by (auto; lia). f_equal. lia.
Qed.

Lemma masked_assign_eye n F vals i j :
  List.length F = n -> List.length vals = n ->
  Forall (fun row => List.length row = n) F ->
  (i < n)%nat ->
  entry (masked_assign (eye n) F vals) i j
  = if Nat.eqb i j then nth i vals 0 else entry F i j.
Proof.
  intros HF Hv Hall Hi. unfold entry, eye.
  rewrite masked_assign_eye_rows by (auto; lia). simpl.
  apply nth_set_nth.
  rewrite Forall_forall in Hall. rewrite (Hall (nth i F [])); auto.
  apply nth_In. lia.
Qed.

End ArrayFacts.

(** ** The force matrix *)

Section ForceMatrixFacts.

Import Np.

Variables (positions positions_original : vec) (C k : R).

Let n := List.length positions.
Let p (i : nat) := nth i positions 0.

Lemma displacement_row i :
  (i < n)%nat ->
  nth i (displacement_matrix positions) []
  = map (fun aj => p i - aj) positions.
Proof.
  intros Hi. unfold displacement_matrix, outer_sub.
  rewrite (nth_map_in _ _ _ 0) by exact Hi. reflexivity.
Qed.

Lemma displacement_length :
  List.length (displacement_matrix positions) = n.
Proof. unfold displacement_matrix, outer_sub. apply length_map. Qed.

Lemma off_diag_row i :
  (i < n)%nat ->
  nth i (off_diag_mask positions) []
  = zip_with andb
      (map negb (map (Nat.eqb i) (seq 0 n)))
      (map (fun x => gtb (Rabs x) gap_eps)
         (map (fun aj => p i - aj) positions)).
Proof.
  intros Hi. unfold off_diag_mask, logical_and, zip_with2.
  unfold logical_not, non_zero_displacements, abs_gt, diag_mask, eye.
  rewrite displacement_length. fold n.
  rewrite (nth_zip_with _ _ _ _ [] []).
  - rewrite (nth_map_in _ _ _ []), nth_map_seq by
      (rewrite ?length_map, ?length_seq; auto).
    rewrite (nth_map_in _ _ _ []) by (rewrite displacement_length; auto).
    rewrite displacement_row by auto. reflexivity.
  - rewrite !length_map, length_seq; auto.
  - rewrite length_map, displacement_length; auto.
Qed.

Lemma off_diag_length : List.length (off_diag_mask positions) = n.
Proof.
  unfold off_diag_mask, logical_and, zip_with2.
  rewrite zip_with_length.
  unfold logical_not, non_zero_displacements, abs_gt, diag_mask, eye.
  rewrite !length_map, length_seq, displacement_length. fold n. lia.
Qed.

Lemma off_diag_entry i j :
  (i < n)%nat -> (j < n)%nat ->
  nth j (nth i (off_diag_mask positions) []) false
  = negb (Nat.eqb i j) && gtb (Rabs (p i - p j)) gap_eps.
Proof.
  intros Hi Hj. rewrite off_diag_row by auto.
  rewrite (nth_zip_with _ _ _ _ false false) by
    (rewrite !length_map, ?length_seq; auto).
  rewrite (nth_map_in _ _ _ false) by (rewrite length_map, length_seq; auto).
  rewrite nth_map_seq by auto.
  rewrite (nth_map_in _ _ _ 0) by (rewrite length_map; auto).
  rewrite (nth_map_in _ _ _ 0) by auto.
  reflexivity.
Qed.

(** Shape of the matrix after the repulsion update. *)
Lemma repulsion_row i :
  (i < n)%nat ->
  nth i (Fmat_repulsion positions C) []
  = zip_with (fun (b : bool) (fd : R * R) =>
                if b then fst fd + C * snd fd / Rabs (snd fd) ^ 4
                else fst fd)
      (nth i (off_diag_mask positions) [])
      (zip_with pair (repeat 0 n) (map (fun aj => p i - aj) positions)).
Proof.
  intros Hi. unfold Fmat_repulsion, masked_add, zip_with2, zeros. fold n.
  rewrite (nth_zip_with _ _ _ _ [] []).
  - rewrite (nth_zip_with _ _ _ _ [] []) by
      (rewrite ?repeat_length, ?displacement_length; auto).
    rewrite displacement_row by auto.
    rewrite (nth_indep _ [] (repeat 0 n)) by (rewrite repeat_length; auto).
    rewrite nth_repeat. reflexivity.
  - rewrite off_diag_length; auto.
  - rewrite zip_with_length, repeat_length, displacement_length. lia.
Qed.

Lemma repulsion_length : List.length (Fmat_repulsion positions C) = n.
Proof.
  unfold Fmat_repulsion, masked_add, zip_with2, zeros.
  rewrite !zip_with_length, off_diag_length, repeat_length,
    displacement_length. fold n. lia.
Qed.

Lemma repulsion_row_length i :
  (i < n)%nat -> List.length (nth i (Fmat_repulsion positions C) []) = n.
Proof.
  intros Hi. rewrite repulsion_row, off_diag_row by auto.
  rewrite !zip_with_length, !length_map, length_seq, repeat_length.
  fold n. lia.
Qed.

Lemma repulsion_rows_square :
  Forall (fun row => List.length row = n) (Fmat_repulsion positions C).
Proof.
  apply Forall_forall. intros row Hin.
  destruct (In_nth _ _ [] Hin) as (i & Hi & <-).
  apply repulsion_row_length. rewrite <- repulsion_length. exact Hi.
Qed.

Lemma repulsion_entry i j :
  (i < n)%nat -> (j < n)%nat ->
  entry (Fmat_repulsion positions C) i j
  = if negb (Nat.eqb i j) && gtb (Rabs (p i - p j)) gap_eps
    then C * (p i - p j) / Rabs (p i - p j) ^ 4
    else 0.
Proof.
  intros Hi Hj. unfold entry. rewrite repulsion_row by auto.
  rewrite (nth_zip_with _ _ _ _ false (0, 0)).
  - rewrite off_diag_entry by auto.
    rewrite (nth_zip_with _ _ _ _ 0 0) by
      (rewrite ?repeat_length, ?length_map; auto).
    rewrite nth_repeat, (nth_map_in _ _ _ 0) by auto. simpl. fold (p j).
    destruct (negb (Nat.eqb i j) && gtb (Rabs (p i - p j)) gap_eps);
      lra.
  - rewrite off_diag_row by auto.
    rewrite zip_with_length, !length_map, length_seq. fold n. lia.
  - rewrite zip_with_length, repeat_length, length_map. fold n. lia.
Qed.

(** The tie-break mask of line 68 is empty on every input, so lines
    70-71 never run and the generator is left untouched. *)
Lemma zero_off_diag_count :
  count (zero_off_diag_mask positions) = 0%nat.
Proof.
  unfold zero_off_diag_mask, off_diag_mask. apply count_contradictory.
Qed.

Lemma Fmat_random_skipped g :
  Fmat_random positions C g = (Fmat_repulsion positions C, g).
Proof.
  unfold Fmat_random. rewrite zero_off_diag_count. reflexivity.
Qed.

Lemma force_matrix_unfold g :
  get_force_matrix positions positions_original C k g
  = (masked_assign (eye n) (Fmat_repulsion positions C)
       (map (Rmult (-2 * k)) (sub positions positions_original)), g).
Proof.
  unfold get_force_matrix. rewrite Fmat_random_skipped.
  unfold diag_mask. rewrite displacement_length. reflexivity.
Qed.

Hypothesis same_length :
  List.length positions_original = List.length positions.

Lemma spring_values_length :
  List.length (map (Rmult (-2 * k)) (sub positions positions_original)) = n.
Proof.
  unfold sub. rewrite length_map, zip_with_length, same_length.
  fold n. lia.
Qed.

Lemma spring_value i :
  (i < n)%nat ->
  nth i (map (Rmult (-2 * k)) (sub positions positions_original)) 0
  = -2 * k * (p i - nth i positions_original 0).
Proof.
  intros Hi. unfold sub.
  rewrite (nth_map_in _ _ _ 0) by
    (rewrite zip_with_length, same_length; fold n; lia).
  rewrite (nth_zip_with _ _ _ _ 0 0) by (rewrite ?same_length; auto).
  reflexivity.
Qed.

Lemma force_matrix_entry g i j :
  (i < n)%nat -> (j < n)%nat ->
  entry (fst (get_force_matrix positions positions_original C k g)) i j
  = if Nat.eqb i j then -2 * k * (p i - nth i positions_original 0)
    else if gtb (Rabs (p i - p j)) gap_eps
         then C * (p i - p j) / Rabs (p i - p j) ^ 4
         else 0.
Proof.
  intros Hi Hj. rewrite force_matrix_unfold. simpl.
  rewrite masked_assign_eye;
    auto using repulsion_length, spring_values_length,
      repulsion_rows_square.
  rewrite spring_value, repulsion_entry by auto.
  destruct (Nat.eqb i j); reflexivity.
Qed.

End ForceMatrixFacts.

Lemma gtb_true a b : a > b -> Np.gtb a b = true.
Proof.
  intros H. unfold Np.gtb.
  destruct (Rgt_dec a b); [reflexivity | contradiction].
Qed.

Lemma gtb_false a b : a <= b -> Np.gtb a b = false.
Proof.
  intros H. unfold Np.gtb.
  destruct (Rgt_dec a b); [lra | reflexivity].
Qed.

(** A coincident off-diagonal pair is left at zero, whatever the random
    generator holds, and the generator is handed back unused. *)
Lemma coincident_entry_zero positions positions_original C k g i j :
  List.length positions_original = List.length positions ->
  (i < List.length positions)%nat -> (j < List.length positions)%nat ->
  i <> j ->
  Rabs (nth i positions 0 - nth j positions 0) <= gap_eps ->
  Np.entry (fst (get_force_matrix positions positions_original C k g)) i j = 0
  /\ snd (get_force_matrix positions positions_original C k g) = g.
Proof.
  intros Hlen Hi Hj Hij Hgap. split.
  - rewrite force_matrix_entry by auto.
    destruct (Nat.eqb_spec i j); [contradiction|].
    rewrite gtb_false by exact Hgap. reflexivity.
  - rewrite force_matrix_unfold. reflexivity.
Qed.

(** C5. For positions and originals of one length [n], the matrix
    returned by [get_force_matrix] has diagonal entry [i] equal to
    [-2 * k * (pos_i - original_i)] for every label [i], and
    off-diagonal entry [(i, j)] equal to
    [C * (pos_i - pos_j) / |pos_i - pos_j|^4] whenever the gap
    [|pos_i - pos_j|] exceeds [1e-8]. *)
Theorem force_matrix_laws positions positions_original C k g i :
  List.length positions_original = List.length positions ->
  (i < List.length positions)%nat ->
  Np.entry (fst (get_force_matrix positions positions_original C k g)) i i
  = -2 * k * (nth i positions 0 - nth i positions_original 0)
  /\ forall j, (j < List.length positions)%nat -> i <> j ->
       Rabs (nth i positions 0 - nth j positions 0) > 1e-8 ->
       Np.entry (fst (get_force_matrix positions positions_original C k g))
         i j
       = C * (nth i positions 0 - nth j positions 0)
         / Rabs (nth i positions 0 - nth j positions 0) ^ 4.
Proof.
  intros Hlen Hi. split.
  - rewrite force_matrix_entry by auto.
    rewrite Nat.eqb_refl. reflexivity.
  - intros j Hj Hij Hgap.
    rewrite force_matrix_entry by auto.
    destruct (Nat.eqb_spec i j); [contradiction|].
    rewrite gtb_true by exact Hgap. reflexivity.
Qed.

(** The laws at three inputs: a label with far neighbours, a single
    label, and two coincident labels. *)
Lemma force_matrix_laws_witness :
  (Np.entry (fst (get_force_matrix [0; 2; 3] [0; 1; 3] 1 1 (fun _ => 7))) 1 1
   = -2 * 1 * (2 - 1)
   /\ Np.entry (fst (get_force_matrix [0; 2; 3] [0; 1; 3] 1 1
                       (fun _ => 7))) 1 2
      = 1 * (2 - 3) / Rabs (2 - 3) ^ 4)
  /\ Np.entry (fst (get_force_matrix [4] [1] 0.01 0.00001 (fun _ => 7))) 0 0
     = -2 * 0.00001 * (4 - 1)
  /\ Np.entry (fst (get_force_matrix [4; 4] [1; 5] 0.01 0.00001
                      (fun _ => 7))) 1 1
     = -2 * 0.00001 * (4 - 5).
Proof.
  split; [|split].
  - destruct (force_matrix_laws [0; 2; 3] [0; 1; 3] 1 1 (fun _ => 7) 1%nat)
      as [Hdiag Hoff]; [reflexivity | simpl; lia |].
    split; [exact Hdiag|].
    apply (Hoff 2%nat); [simpl; lia | lia |].
    simpl. unfold Rabs. destruct (Rcase_abs (2 - 3)); lra.
  - apply (force_matrix_laws [4] [1] 0.01 0.00001 (fun _ => 7) 0%nat);
      [reflexivity | simpl; lia].
  - apply (force_matrix_laws [4; 4] [1; 5] 0.01 0.00001 (fun _ => 7) 1%nat);
      [reflexivity | simpl; lia].
Defined.

(** C2. With two coincident labels, positions [[0; 0; 1]], the
    off-diagonal entry [(0, 1)] of [get_force_matrix] is zero for every
    state of the random generator, and no draw is consumed: the
    randomised tie-break announced on lines 67-71 does not take place. *)
Theorem coincident_pair_gets_no_random_force (g : Np.rng) :
  Np.entry (fst (get_force_matrix [0; 0; 1] [0; 0; 1] 0.01 0.00001 g)) 0 1 = 0
  /\ snd (get_force_matrix [0; 0; 1] [0; 0; 1] 0.01 0.00001 g) = g.
Proof.
  apply coincident_entry_zero; simpl; try lia.
  rewrite Rminus_diag, Rabs_R0. unfold gap_eps. lra.
Qed.

Lemma total_forces_rows positions positions_original C k g :
  fst (get_total_forces positions positions_original C k g)
  = map (fun row => - Np.sum row)
      (fst (get_force_matrix positions positions_original C k g)).
Proof.
  unfold get_total_forces.
  destruct (get_force_matrix positions positions_original C k g) as [F g'].
  simpl. unfold Np.sum_axis1, Np.scale. rewrite map_map.
  apply map_ext. intros row. rewrite sum_scale. lra.
Qed.

(** C1 (as amended). The vector returned by [get_total_forces] is the
    negated row-sum of the matrix returned by [get_force_matrix], for
    every positions and originals vector and all constants. *)
Theorem total_forces_negated_row_sum positions positions_original C k g :
  fst (get_total_forces positions positions_original C k g)
  = map (fun row => - Np.sum row)
      (fst (get_force_matrix positions positions_original C k g)).
Proof.
  apply total_forces_rows.
Qed.

(** ** The energy *)

Section EnergyFacts.

Import Np.

Variables (positions : vec) (C : R).

Lemma coulomb_pair_term i j acc :
  coulomb_pair positions C i j acc = acc + pair_term positions C (i, j).
Proof.
  unfold coulomb_pair, pair_term. simpl.
  destruct (Rgt_dec _ gap_eps); lra.
Qed.

Lemma coulomb_inner_fold i l acc :
  fold_left (fun a j => coulomb_pair positions C i j a) l acc
  = acc + sum (map (fun j => pair_term positions C (i, j)) l).
Proof.
  revert acc; induction l as [|j l IH]; intros acc; simpl; [lra|].
  rewrite IH, coulomb_pair_term. lra.
Qed.

Lemma coulomb_outer_fold (row : nat -> list nat) l acc :
  fold_left
    (fun a i => fold_left (fun a' j => coulomb_pair positions C i j a')
                  (row i) a) l acc
  = acc + sum (map (fun i =>
                      sum (map (fun j => pair_term positions C (i, j))
                             (row i))) l).
Proof.
  revert acc; induction l as [|i l IH]; intros acc; simpl; [lra|].
  rewrite IH, coulomb_inner_fold. lra.
Qed.

Lemma pair_term_nonneg ij : 0 <= C -> 0 <= pair_term positions C ij.
Proof.
  intros HC. unfold pair_term.
  destruct (Rgt_dec _ gap_eps) as [Hgt|]; [|lra].
  unfold gap_eps in Hgt.
  apply Rmult_le_pos; [exact HC|].
  apply Rlt_le, Rinv_0_lt_compat, pow_lt. lra.
Qed.

End EnergyFacts.

Lemma filter_above_seq a s m :
  filter (fun j => (a <? j)%nat) (seq s m)
  = seq (Nat.max s (S a)) (s + m - Nat.max s (S a)).
Proof.
  revert s; induction m as [|m IH]; intros s; simpl.
  - replace (s + 0 - Nat.max s (S a))%nat with 0%nat by lia. reflexivity.
  - rewrite IH. destruct (Nat.ltb_spec a s).
    + replace (Nat.max (S s) (S a)) with (S s) by lia.
      replace (Nat.max s (S a)) with s by lia.
      replace (s + S m - s)%nat with (S m) by lia.
      replace (S s + m - S s)%nat with m by lia. reflexivity.
    + replace (Nat.max (S s) (S a)) with (S a) by lia.
      replace (Nat.max s (S a)) with (S a) by lia.
      f_equal. lia.
Qed.

Lemma filter_pairs_row (a : nat) (l : list nat) :
  filter (fun ij : nat * nat => (fst ij <? snd ij)%nat) (map (pair a) l)
  = map (pair a) (filter (fun j => (a <? j)%nat) l).
Proof.
  induction l as [|j l IH]; simpl; auto.
  destruct (a <? j)%nat; simpl; rewrite IH; reflexivity.
Qed.

Lemma sum_unordered_pairs (f : nat * nat -> R) n l :
  Np.sum (map f (filter (fun ij => (fst ij <? snd ij)%nat)
                   (list_prod l (seq 0 n))))
  = Np.sum (map (fun i =>
                   Np.sum (map (fun j => f (i, j))
                             (seq (i + 1) (n - (i + 1))))) l).
Proof.
  induction l as [|a l IH]; simpl; auto.
  rewrite filter_app, map_app, sum_app, IH. f_equal.
  rewrite filter_pairs_row, filter_above_seq, map_map.
  rewrite Nat.add_1_r. reflexivity.
Qed.

Lemma spring_sum_combine (p o : Np.vec) :
  Np.sum (map (fun d => d ^ 2) (Np.sub p o))
  = Np.sum (map (fun po => (fst po - snd po) ^ 2) (combine p o)).
Proof.
  unfold Np.sub. revert o; induction p as [|a p IH]; intros [|b o];
    simpl; auto.
  rewrite IH. reflexivity.
Qed.

Lemma energy_as_formula positions positions_original C k :
  get_energy positions positions_original C k
  = energy_formula positions positions_original C k.
Proof.
  unfold get_energy, energy_formula, spring_energy, coulomb_energy,
    unordered_pairs.
  rewrite spring_sum_combine.
  unfold coulomb_inner.
  rewrite (coulomb_outer_fold positions C
             (fun i => seq (i + 1) (List.length positions - (i + 1)))).
  rewrite sum_unordered_pairs. lra.
Qed.

Lemma squares_sum_nonneg (l : list (R * R)) :
  0 <= Np.sum (map (fun po => (fst po - snd po) ^ 2) l).
Proof.
  apply sum_nonneg, Forall_forall. intros v Hin.
  apply in_map_iff in Hin. destruct Hin as (po & <- & _).
  apply pow2_ge_0.
Qed.

Lemma energy_formula_nonneg positions positions_original C k :
  0 <= C -> 0 <= k -> 0 <= energy_formula positions positions_original C k.
Proof.
  intros HC Hk. unfold energy_formula.
  apply Rplus_le_le_0_compat.
  - apply sum_nonneg, Forall_forall. intros v Hin.
    apply in_map_iff in Hin. destruct Hin as (ij & <- & _).
    apply pair_term_nonneg, HC.
  - apply Rmult_le_pos; [lra | apply squares_sum_nonneg].
Qed.

(** C6. For every positions/originals pair and every [C > 0], [k > 0],
    [get_energy] returns the sum over unordered pairs [i < j] of
    [C / |pos_i - pos_j|^2] (nothing for a pair whose gap is at or below
    [1e-8]) plus [(1/2) * k] times the sum of [(pos_i - original_i)^2],
    and this value is non-negative. *)
Theorem energy_value_and_sign positions positions_original C k :
  C > 0 -> k > 0 ->
  get_energy positions positions_original C k
  = energy_formula positions positions_original C k
  /\ 0 <= get_energy positions positions_original C k.
Proof.
  intros HC Hk. split.
  - apply energy_as_formula.
  - rewrite energy_as_formula. apply energy_formula_nonneg; lra.
Qed.

Lemma energy_value_and_sign_witness :
  get_energy [0; 0; 1] [0; 0.5; 1] 0.01 0.00001
  = energy_formula [0; 0; 1] [0; 0.5; 1] 0.01 0.00001
  /\ 0 <= get_energy [0; 0; 1] [0; 0.5; 1] 0.01 0.00001.
Proof.
  apply (energy_value_and_sign [0; 0; 1] [0; 0.5; 1] 0.01 0.00001); lra.
Defined.

(** ** Sorting permutations *)

Section ArgsortFacts.

Context {A : Type} (leb : A -> A -> bool).

Lemma insert_key_perm p l : Permutation (p :: l) (insert_key leb p l).
Proof.
  induction l as [|q l IH]; simpl; auto.
  destruct (leb (fst p) (fst q)); auto.
  rewrite perm_swap. apply perm_skip, IH.
Qed.

Lemma sort_keys_perm keys :
  Permutation (combine keys (seq 0 (List.length keys))) (sort_keys leb keys).
Proof.
  unfold sort_keys.
  induction (combine keys (seq 0 (List.length keys))) as [|p l IH];
    simpl; auto.
  rewrite <- insert_key_perm. apply perm_skip, IH.
Qed.

Lemma combine_seq_snd (keys : list A) s :
  map snd (combine keys (seq s (List.length keys)))
  = seq s (List.length keys).
Proof.
  revert s; induction keys as [|a keys IH]; intros s; simpl; auto.
  rewrite IH. reflexivity.
Qed.

Lemma combine_seq_fst (keys : list A) s :
  map fst (combine keys (seq s (List.length keys))) = keys.
Proof.
  revert s; induction keys as [|a keys IH]; intros s; simpl; auto.
  rewrite IH. reflexivity.
Qed.

(** [argsort] returns a permutation of the indices. *)
Lemma argsort_perm keys :
  Permutation (argsort leb keys) (seq 0 (List.length keys)).
Proof.
  unfold argsort. rewrite <- (combine_seq_snd keys 0).
  apply Permutation_map, Permutation_sym, sort_keys_perm.
Qed.

Lemma argsort_length keys :
  List.length (argsort leb keys) = List.length keys.
Proof.
  rewrite (Permutation_length (argsort_perm keys)). apply length_seq.
Qed.

Lemma sorted_keys_perm keys :
  Permutation (map fst (sort_keys leb keys)) keys.
Proof.
  rewrite <- (combine_seq_fst keys 0) at 2.
  apply Permutation_map, Permutation_sym, sort_keys_perm.
Qed.

(** Every sorted pair carries a key together with its own index. *)
Lemma combine_seq_in (keys : list A) s v r d :
  In (v, r) (combine keys (seq s (List.length keys))) ->
  (s <= r < s + List.length keys)%nat /\ v = nth (r - s) keys d.
Proof.
  revert s; induction keys as [|a keys IH]; intros s; simpl; [tauto|].
  intros [Heq | Hin].
  - inversion Heq; subst. rewrite Nat.sub_diag. split; [lia | reflexivity].
  - destruct (IH _ Hin) as [Hr Hv]. split; [lia|].
    replace (r - s)%nat with (S (r - S s)) by lia. exact Hv.
Qed.

Lemma sort_keys_fst keys d :
  map fst (sort_keys leb keys)
  = map (fun r => nth r keys d) (argsort leb keys).
Proof.
  unfold argsort. rewrite map_map. apply map_ext_in.
  intros [v r] Hin. simpl.
  apply (Permutation_in _ (Permutation_sym (sort_keys_perm keys))) in Hin.
  destruct (combine_seq_in keys 0 v r d Hin) as [_ Hv].
  rewrite Nat.sub_0_r in Hv. exact Hv.
Qed.

End ArgsortFacts.

(** Sorting natural-number keys yields an ascending list. *)

Lemma insert_key_hdrel a p l :
  key_le a p -> HdRel key_le a l -> HdRel key_le a (insert_key Nat.leb p l).
Proof.
  intros Hap Hal. destruct l as [|q l]; simpl.
  - constructor. exact Hap.
  - destruct (Nat.leb (fst p) (fst q)); constructor; auto.
    inversion Hal; auto.
Qed.

Lemma insert_key_sorted p l :
  Sorted key_le l -> Sorted key_le (insert_key Nat.leb p l).
Proof.
  induction 1 as [|q l Hs IH Hhd]; simpl.
  - repeat constructor.
  - destruct (Nat.leb_spec (fst p) (fst q)) as [Hle|Hlt].
    + constructor; [constructor; auto | constructor; exact Hle].
    + constructor; [exact IH|].
      apply insert_key_hdrel; [unfold key_le; lia | exact Hhd].
Qed.

Lemma sort_keys_sorted keys : Sorted key_le (sort_keys Nat.leb keys).
Proof.
  unfold sort_keys.
  induction (combine keys (seq 0 (List.length keys))) as [|p l IH]; simpl.
  - constructor.
  - apply insert_key_sorted, IH.
Qed.

Lemma sorted_keys_ascending keys :
  StronglySorted le (map fst (sort_keys Nat.leb keys)).
Proof.
  assert (H : StronglySorted key_le (sort_keys Nat.leb keys)).
  { apply Sorted_StronglySorted; [|apply sort_keys_sorted].
    intros a b c; unfold key_le; lia. }
  induction H as [|p l Hs IH Hall]; simpl; constructor; auto.
  rewrite Forall_map. exact Hall.
Qed.

(** Two ascending lists with the same elements are equal. *)
Lemma ascending_perm_unique (l1 l2 : list nat) :
  StronglySorted le l1 -> StronglySorted le l2 -> Permutation l1 l2 ->
  l1 = l2.
Proof.
  intros H1; revert l2; induction H1 as [|a l1 Hs1 IH Ha];
    intros l2 H2 Hp.
  - apply Permutation_nil in Hp. subst; reflexivity.
  - destruct H2 as [|b l2 Hs2 Hb].
    + apply Permutation_sym, Permutation_nil in Hp. discriminate.
    + assert (Hab : a = b).
      { assert (Hin1 : In a (b :: l2))
          by (apply (Permutation_in _ Hp); left; reflexivity).
        assert (Hin2 : In b (a :: l1))
          by (apply (Permutation_in _ (Permutation_sym Hp)); left;
              reflexivity).
        rewrite Forall_forall in Ha, Hb.
        destruct Hin1 as [->|Hin1]; [reflexivity|].
        destruct Hin2 as [->|Hin2]; [reflexivity|].
        apply Nat.le_antisymm; auto. }
      subst b. f_equal. apply IH; auto.
      apply Permutation_cons_inv with (a := a). exact Hp.
Qed.

Lemma seq_ascending s n : StronglySorted le (seq s n).
Proof.
  revert s; induction n as [|n IH]; intros s; simpl; constructor; auto.
  apply Forall_forall. intros x Hin. apply in_seq in Hin. lia.
Qed.

(** The second [argsort] inverts the first: reading [order] through
    [argsort order] enumerates the indices in their natural order. *)
Lemma argsort_inverts order n :
  Permutation order (seq 0 n) ->
  map (fun r => nth r order 0%nat) (argsort Nat.leb order) = seq 0 n.
Proof.
  intros Hp. rewrite <- (sort_keys_fst Nat.leb order 0%nat).
  apply ascending_perm_unique.
  - apply sorted_keys_ascending.
  - apply seq_ascending.
  - rewrite sorted_keys_perm. exact Hp.
Qed.

Lemma take_all (a : Np.vec) : Np.take a (seq 0 (List.length a)) = a.
Proof.
  unfold Np.take. apply nth_ext with (d := 0) (d' := 0).
  - rewrite length_map, length_seq. reflexivity.
  - intros i Hi. rewrite length_map, length_seq in Hi.
    rewrite nth_map_seq by exact Hi. reflexivity.
Qed.

Lemma perm_seq_bound order n r :
  Permutation order (seq 0 n) -> In r order -> (r < n)%nat.
Proof.
  intros Hp Hin. apply (Permutation_in _ Hp), in_seq in Hin. lia.
Qed.

(** Sorting and then reading back through the inverse permutation
    restores every entry to its original index. *)
Lemma take_order_inverse (a : Np.vec) order :
  Permutation order (seq 0 (List.length a)) ->
  Np.take (Np.take a order) (argsort Nat.leb order) = a.
Proof.
  intros Hp. rewrite <- (take_all a) at 2.
  rewrite <- (argsort_inverts order _ Hp).
  unfold Np.take. rewrite map_map. apply map_ext_in.
  intros r Hin.
  apply (Permutation_in _ (argsort_perm Nat.leb order)), in_seq in Hin.
  rewrite (nth_map_in (fun i => nth i a 0) order r 0%nat 0) by lia.
  reflexivity.
Qed.

(** ** The layout optimiser *)

Section OptimiseFacts.

Variable minimize :
  Np.rng -> (Np.vec -> R) -> (Np.rng -> Np.vec -> Np.vec * Np.rng) ->
  Np.vec -> list constraint -> Z -> R -> Np.vec * Np.rng.

Lemma optimise_unfold g positions max_iters C k ftol :
  (3 <= List.length positions)%nat ->
  optimise_annotations minimize g positions max_iters C k ftol
  = (Np.take
       (map (fun p => p * original_range (sorted_positions positions)
                      + Np.min (sorted_positions positions))
          (fst (minimiser_result minimize g (sorted_positions positions)
                  max_iters C k ftol)))
       (argsort Nat.leb (argsort Rleb positions)),
     snd (minimiser_result minimize g (sorted_positions positions)
            max_iters C k ftol)).
Proof.
  intros Hn. unfold optimise_annotations.
  destruct (Nat.ltb_spec (List.length positions) 3) as [Hlt|_]; [lia|].
  unfold minimiser_result, normalised, sorted_positions.
  destruct (minimize _ _ _ _ _ _ _) as [res_x g']. reflexivity.
Qed.

Lemma sorted_positions_length positions :
  List.length (sorted_positions positions) = List.length positions.
Proof.
  unfold sorted_positions, Np.take.
  rewrite length_map. apply argsort_length.
Qed.

Lemma normalised_length v : List.length (normalised v) = List.length v.
Proof. unfold normalised. apply length_map. Qed.

End OptimiseFacts.

Lemma fold_left_Rmax_repeat x n : fold_left Rmax (repeat x n) x = x.
Proof.
  induction n as [|n IH]; simpl; auto.
  rewrite Rmax_left by lra. exact IH.
Qed.

Lemma fold_left_Rmin_repeat x n : fold_left Rmin (repeat x n) x = x.
Proof.
  induction n as [|n IH]; simpl; auto.
  rewrite Rmin_left by lra. exact IH.
Qed.

Lemma take_repeat x n idx :
  Forall (fun i => (i < n)%nat) idx ->
  Np.take (repeat x n) idx = repeat x (List.length idx).
Proof.
  induction 1 as [|i idx Hi _ IH]; simpl; auto.
  rewrite IH. f_equal.
  rewrite (nth_indep _ 0 x) by (rewrite repeat_length; exact Hi).
  apply nth_repeat.
Qed.

(** When all labels coincide, sorting changes nothing and the range used
    as divisor on lines 174-175 is zero. *)
Lemma coincident_labels_range x n :
  sorted_positions (repeat x (S n)) = repeat x (S n)
  /\ original_range (repeat x (S n)) = 0.
Proof.
  split.
  - unfold sorted_positions. rewrite take_repeat.
    + rewrite argsort_length, repeat_length. reflexivity.
    + apply Forall_forall. intros i Hin.
      apply (perm_seq_bound _ _ _ (argsort_perm Rleb _)) in Hin.
      rewrite repeat_length in Hin. exact Hin.
  - unfold original_range. simpl.
    rewrite fold_left_Rmax_repeat, fold_left_Rmin_repeat. lra.
Qed.

(** C7. For every input with fewer than three positions, the empty one
    included, [optimise_annotations] returns the input unchanged. *)
Theorem optimise_short_input_unchanged minimize g positions max_iters C k
  ftol :
  (List.length positions < 3)%nat ->
  optimise_annotations minimize g positions max_iters C k ftol
  = (positions, g).
Proof.
  intros Hn. unfold optimise_annotations.
  destruct (Nat.ltb_spec (List.length positions) 3); [reflexivity | lia].
Qed.

Lemma optimise_short_input_unchanged_witness :
  (List.length [5; 1] < 3)%nat
  /\ optimise_annotations (fun g _ _ x0 _ _ _ => (map (Rplus 1) x0, g))
       (fun _ => 0) [5; 1] 10000 0.01 0.00001 0.001
     = ([5; 1], fun _ => 0).
Proof.
  split; [simpl; lia|].
  apply (optimise_short_input_unchanged
           (fun g _ _ x0 _ _ _ => (map (Rplus 1) x0, g))
           (fun _ => 0) [5; 1] 10000 0.01 0.00001 0.001).
  simpl; lia.
Defined.

(** C3. With three coincident labels [[1; 1; 1]] the sorted positions
    are [[1; 1; 1]] and the range [max - min] by which lines 174-175
    divide is exactly zero: the normalisation computes [(1 - 1) / 0]. *)
Theorem coincident_labels_divide_by_zero :
  sorted_positions [1; 1; 1] = [1; 1; 1]
  /\ original_range (sorted_positions [1; 1; 1]) = 0
  /\ normalised (sorted_positions [1; 1; 1])
     = [(1 - 1) / 0; (1 - 1) / 0; (1 - 1) / 0].
Proof.
  destruct (coincident_labels_range 1 2) as [Hs Hr]. simpl in Hs, Hr.
  rewrite Hs. repeat split; auto.
  unfold normalised. rewrite Hr. simpl.
  rewrite !(Rmin_left 1 1) by lra. reflexivity.
Qed.

(** C8. For every input of three or more positions and every minimiser
    that returns a vector of the length it was given, the result of
    [optimise_annotations] has the length of the input; undoing the
    ascending sort with the inverse permutation puts every input
    position back at its own index; and entry [i] of the result is the
    rescaled minimiser value of the sorted slot [r] that holds input
    entry [i]. *)
Theorem optimise_restores_input_order minimize g positions max_iters C k
  ftol :
  (forall g f jac x0 cs mi tol,
      List.length (fst (minimize g f jac x0 cs mi tol)) = List.length x0) ->
  (3 <= List.length positions)%nat ->
  let order := argsort Rleb positions in
  let sorted := Np.take positions order in
  let res_x := fst (minimiser_result minimize g sorted max_iters C k ftol) in
  let out :=
    fst (optimise_annotations minimize g positions max_iters C k ftol) in
  List.length out = List.length positions
  /\ Np.take sorted (argsort Nat.leb order) = positions
  /\ forall i, (i < List.length positions)%nat ->
       exists r, (r < List.length positions)%nat
         /\ nth r order 0%nat = i
         /\ nth r sorted 0 = nth i positions 0
         /\ nth i out 0
            = nth r res_x 0 * original_range sorted + Np.min sorted.
Proof.
  intros Hmin Hn order sorted res_x out.
  assert (Hperm : Permutation order (seq 0 (List.length positions)))
    by apply argsort_perm.
  assert (Hinv : Permutation (argsort Nat.leb order)
                   (seq 0 (List.length positions))).
  { rewrite argsort_perm. unfold order. rewrite argsort_length.
    reflexivity. }
  assert (Hout : out
                 = Np.take
                     (map (fun p => p * original_range sorted
                                    + Np.min sorted) res_x)
                     (argsort Nat.leb order)).
  { unfold out. rewrite optimise_unfold by exact Hn. reflexivity. }
  assert (Hres : List.length res_x = List.length positions).
  { unfold res_x, minimiser_result. rewrite Hmin, normalised_length.
    apply sorted_positions_length. }
  split; [|split].
  - rewrite Hout. unfold Np.take. rewrite length_map.
    rewrite (Permutation_length Hinv). apply length_seq.
  - apply take_order_inverse, Hperm.
  - intros i Hi.
    pose proof (argsort_inverts order _ Hperm) as Hmap.
    assert (Hlen : List.length (argsort Nat.leb order)
                   = List.length positions)
      by (rewrite (Permutation_length Hinv); apply length_seq).
    set (r := nth i (argsort Nat.leb order) 0%nat).
    assert (Hr : (r < List.length positions)%nat).
    { apply (perm_seq_bound _ _ _ Hinv). apply nth_In. lia. }
    assert (Hri : nth r order 0%nat = i).
    { apply (f_equal (fun l => nth i l 0%nat)) in Hmap.
      rewrite (nth_map_in _ _ _ 0%nat) in Hmap by lia.
      rewrite seq_nth in Hmap by exact Hi. exact Hmap. }
    exists r. repeat split; auto.
    + unfold sorted, Np.take.
      rewrite (nth_map_in _ _ _ 0%nat)
        by (rewrite (Permutation_length Hperm), length_seq; exact Hr).
      rewrite Hri. reflexivity.
    + rewrite Hout. unfold Np.take.
      rewrite (nth_map_in _ _ _ 0%nat) by lia. fold r.
      rewrite (nth_map_in _ _ _ 0) by lia. reflexivity.
Qed.

Lemma optimise_restores_input_order_witness :
  (3 <= List.length [5; 1; 3])%nat
  /\ List.length
       (fst (optimise_annotations (fun g _ _ x0 _ _ _ => (x0, g))
               (fun _ => 0) [5; 1; 3] 10000 0.01 0.00001 0.001))
     = List.length [5; 1; 3]
  /\ Np.take (Np.take [5; 1; 3] (argsort Rleb [5; 1; 3]))
       (argsort Nat.leb (argsort Rleb [5; 1; 3]))
     = [5; 1; 3].
Proof.
  split; [simpl; lia|].
  destruct (optimise_restores_input_order
              (fun g _ _ x0 _ _ _ => (x0, g))
              (fun _ => 0) [5; 1; 3] 10000 0.01 0.00001 0.001)
    as (Hlen & Hback & _).
  - intros; reflexivity.
  - simpl; lia.
  - split; [exact Hlen | exact Hback].
Defined.

(** The sort order of the example [[5; 1; 3]] and its inverse. *)
Example argsort_5_1_3 :
  argsort Rleb [5; 1; 3] = [1; 2; 0]%nat
  /\ argsort Nat.leb [1; 2; 0]%nat = [2; 0; 1]%nat.
Proof.
  split; [|reflexivity].
  unfold argsort, sort_keys. simpl. unfold Rleb.
  repeat (destruct (Rle_dec _ _); try lra; simpl).
  reflexivity.
Qed.

(** ** Contour synthesis *)

Section ContourFacts.

Variables (X Y : Np.matrix) (x_broadening y_broadening : R).

Lemma add_peaks_same_kernel peaks Z :
  add_peaks "lorentzian" X Y x_broadening y_broadening peaks Z
  = add_peaks "gaussian" X Y x_broadening y_broadening peaks Z.
Proof.
  revert Z; induction peaks as [|peak rest IH]; intros Z; simpl; auto.
Qed.

Lemma add_peaks_known_kernel broadening peaks Z :
  broadening = "gaussian"%string \/ broadening = "lorentzian"%string ->
  exists Z', add_peaks broadening X Y x_broadening y_broadening peaks Z
             = Returns Z'.
Proof.
  intros Hk. revert Z; induction peaks as [|peak rest IH]; intros Z;
    simpl; [eauto|].
  destruct Hk as [-> | ->]; simpl; apply IH.
Qed.

Lemma add_peaks_returns broadening peaks Z :
  peaks = [] \/ broadening = "gaussian"%string
  \/ broadening = "lorentzian"%string ->
  exists Z', add_peaks broadening X Y x_broadening y_broadening peaks Z
             = Returns Z'.
Proof.
  intros [-> | Hk]; [simpl; eauto | apply add_peaks_known_kernel, Hk].
Qed.

Lemma add_peaks_unknown_kernel broadening peak rest Z :
  broadening <> "gaussian"%string -> broadening <> "lorentzian"%string ->
  add_peaks broadening X Y x_broadening y_broadening (peak :: rest) Z
  = Raises (ValueError ("Unknown broadening function: " ++ broadening)).
Proof.
  intros Hg Hl. simpl.
  destruct (String.eqb_spec broadening "lorentzian"); [contradiction|].
  destruct (String.eqb_spec broadening "gaussian"); [contradiction|].
  reflexivity.
Qed.

End ContourFacts.

Lemma limits_nonempty given (c : R) (coords : list R) :
  exists lo hi, limits given (c :: coords) = Returns (lo, hi).
Proof.
  destruct given as [[lo hi]|]; simpl; eauto.
Qed.

Lemma linspace_returns start stop num :
  (0 <= num)%Z -> exists v, linspace start stop num = Returns v.
Proof.
  intros Hn. unfold linspace.
  destruct (Z.ltb_spec num 0); [lia | eauto].
Qed.

(** C9. For every grid, peak centre and pair of broadening factors the
    functions [lorentzian] and [gaussian] return the same array, and so
    [generate_contour_map] returns the same outcome for the kernel
    ['lorentzian'] as for ['gaussian'] on every peak list. *)
Theorem lorentzian_is_gaussian :
  (forall X x0 Y y0 x_broadening y_broadening,
      lorentzian X x0 Y y0 x_broadening y_broadening
      = gaussian X x0 Y y0 x_broadening y_broadening)
  /\ (forall peaks grid_size x_broadening y_broadening xlims ylims,
         generate_contour_map peaks grid_size "lorentzian"
           x_broadening y_broadening xlims ylims
         = generate_contour_map peaks grid_size "gaussian"
             x_broadening y_broadening xlims ylims).
Proof.
  split; [reflexivity|].
  intros peaks grid_size xb yb xlims ylims. unfold generate_contour_map.
  change (lower "lorentzian") with "lorentzian"%string.
  change (lower "gaussian") with "gaussian"%string.
  destruct (limits xlims _) as [[x_min x_max]|e]; [|reflexivity].
  destruct (limits ylims _) as [[y_min y_max]|e]; [|reflexivity].
  cbn [bind].
  destruct (linspace _ _ _) as [xs|e]; [|reflexivity].
  destruct (linspace _ _ _) as [ys|e]; [|reflexivity].
  cbn [bind meshgrid].
  rewrite add_peaks_same_kernel. reflexivity.
Qed.

(** C4 (as amended). For every call of [generate_contour_map] with at
    least one peak and a non-negative grid size whose kernel name, once
    lowercased, is neither ['gaussian'] nor ['lorentzian'], and for any
    limits, the call raises a [ValueError] whose message carries the
    lowercased kernel name; no grid is returned. *)
Theorem unknown_kernel_raises peaks grid_size broadening x_broadening
  y_broadening xlims ylims :
  peaks <> [] ->
  (0 <= grid_size)%Z ->
  lower broadening <> "gaussian"%string ->
  lower broadening <> "lorentzian"%string ->
  generate_contour_map peaks grid_size broadening x_broadening y_broadening
    xlims ylims
  = Raises (ValueError
              ("Unknown broadening function: " ++ lower broadening)).
Proof.
  intros Hne Hgs Hg Hl. destruct peaks as [|peak rest]; [contradiction|].
  unfold generate_contour_map.
  destruct (limits_nonempty xlims (Peak2D.x peak) (map Peak2D.x rest))
    as (x_min & x_max & Hx).
  destruct (limits_nonempty ylims (Peak2D.y peak) (map Peak2D.y rest))
    as (y_min & y_max & Hy).
  simpl map. rewrite Hx, Hy. simpl.
  destruct (linspace_returns (x_min - 5 * x_broadening)
              (x_max + 5 * x_broadening) grid_size Hgs) as [xs ->].
  destruct (linspace_returns (y_min - 5 * y_broadening)
              (y_max + 5 * y_broadening) grid_size Hgs) as [ys ->].
  simpl bind.
  destruct (String.eqb_spec (lower broadening) "lorentzian");
    [contradiction|].
  destruct (String.eqb_spec (lower broadening) "gaussian");
    [contradiction|].
  reflexivity.
Qed.

Lemma unknown_kernel_raises_witness :
  generate_contour_map
    [Peak2D.mk 1 2 "H1" "C1" 1 "C0" None None] 100 "Triangular" 1 1
    None (Some (0, 10))
  = Raises (ValueError "Unknown broadening function: triangular").
Proof.
  apply (unknown_kernel_raises
           [Peak2D.mk 1 2 "H1" "C1" 1 "C0" None None] 100 "Triangular" 1 1
           None (Some (0, 10)));
    [discriminate | lia | discriminate | discriminate].
Defined.

(** C4 (as stated) fails on an empty peak list: the kernel name is only
    inspected inside the loop over peaks, so with explicit limits the
    call returns a grid. *)
Lemma unknown_kernel_empty_peaks_returns :
  lower "triangular" <> "gaussian"%string
  /\ lower "triangular" <> "lorentzian"%string
  /\ exists grid,
       generate_contour_map [] 2 "triangular" 1 1
         (Some (0, 1)) (Some (0, 1))
       = Returns grid.
Proof.
  split; [discriminate|]. split; [discriminate|].
  eexists. reflexivity.
Qed.

(** *** Grid bounds *)

Lemma set_last_length v x :
  v <> [] -> List.length (set_last v x) = List.length v.
Proof.
  intros Hv. unfold set_last.
  rewrite (app_removelast_last 0 Hv) at 2.
  rewrite !length_app. reflexivity.
Qed.

Lemma linspace_span start stop num :
  (2 <= num)%Z ->
  exists v, linspace start stop num = Returns v
            /\ List.length v = Z.to_nat num
            /\ hd 0 v = start
            /\ last v 0 = stop.
Proof.
  intros Hn. unfold linspace.
  destruct (Z.ltb_spec num 0); [lia|].
  destruct (Z.to_nat num) as [|[|m]] eqn:Hm; try lia.
  eexists. split; [reflexivity|].
  cbn [Nat.ltb Nat.leb Nat.sub]. split; [|split].
  - rewrite set_last_length by (simpl; discriminate).
    rewrite !length_map, length_seq. reflexivity.
  - simpl. lra.
  - unfold set_last. apply last_last.
Qed.

Lemma last_map_nonempty {A B} (f : A -> B) l da db :
  l <> [] -> last (map f l) db = f (last l da).
Proof.
  induction l as [|a l IH]; [contradiction|]. intros _.
  destruct l as [|b l]; [reflexivity|].
  change (last (map f (b :: l)) db = f (last (b :: l) da)).
  apply IH. discriminate.
Qed.

Lemma hd_map_nonempty {A B} (f : A -> B) l da db :
  l <> [] -> hd db (map f l) = f (hd da l).
Proof.
  destruct l; [contradiction | reflexivity].
Qed.

Lemma limits_bounds given coords lo hi :
  bounds_from given coords lo hi -> limits given coords = Returns (lo, hi).
Proof.
  destruct given as [lims|]; simpl.
  - intros ->. reflexivity.
  - intros (Hne & -> & ->). destruct coords; [contradiction | reflexivity].
Qed.

(** C10 (as amended). For every call of [generate_contour_map] with a
    grid size of at least two and a recognised kernel (or no peaks, when
    the kernel is not looked at), the call returns grids [X], [Y] with
    [grid_size] rows; every row of [X] has
    [grid_size] entries running from [x_min - 5 * x_broadening] to
    [x_max + 5 * x_broadening], and the rows of [Y] run from the constant
    row [y_min - 5 * y_broadening] to the constant row
    [y_max + 5 * y_broadening]; here [x_min], [x_max] are the supplied
    [xlims] when given and the extreme peak coordinates otherwise, so
    the padding is applied to explicit limits as well. *)
Theorem contour_grid_bounds peaks grid_size broadening x_broadening
  y_broadening xlims ylims x_min x_max y_min y_max :
  (2 <= grid_size)%Z ->
  peaks = [] \/ lower broadening = "gaussian"%string
  \/ lower broadening = "lorentzian"%string ->
  bounds_from xlims (map Peak2D.x peaks) x_min x_max ->
  bounds_from ylims (map Peak2D.y peaks) y_min y_max ->
  exists X Y Z,
    generate_contour_map peaks grid_size broadening x_broadening
      y_broadening xlims ylims = Returns (X, Y, Z)
    /\ List.length X = Z.to_nat grid_size
    /\ (forall row, In row X ->
          List.length row = Z.to_nat grid_size
          /\ hd 0 row = x_min - 5 * x_broadening
          /\ last row 0 = x_max + 5 * x_broadening)
    /\ List.length Y = Z.to_nat grid_size
    /\ hd [] Y = repeat (y_min - 5 * y_broadening) (Z.to_nat grid_size)
    /\ last Y [] = repeat (y_max + 5 * y_broadening) (Z.to_nat grid_size).
Proof.
  intros Hgs Hk Hx Hy. unfold generate_contour_map.
  rewrite (limits_bounds _ _ _ _ Hx), (limits_bounds _ _ _ _ Hy).
  cbn [bind].
  destruct (linspace_span (x_min - 5 * x_broadening)
              (x_max + 5 * x_broadening) grid_size Hgs)
    as (xs & -> & Hxl & Hxh & Hxt).
  destruct (linspace_span (y_min - 5 * y_broadening)
              (y_max + 5 * y_broadening) grid_size Hgs)
    as (ys & -> & Hyl & Hyh & Hyt).
  cbn [bind meshgrid].
  destruct (add_peaks_returns
              (repeat xs (List.length ys))
              (map (fun yi => repeat yi (List.length xs)) ys)
              x_broadening y_broadening (lower broadening) peaks
              (zeros_like (repeat xs (List.length ys))) Hk) as [Z' ->].
  cbn [bind].
  assert (Hys : ys <> []).
  { intros ->. simpl in Hyl. lia. }
  exists (repeat xs (List.length ys)),
         (map (fun yi => repeat yi (List.length xs)) ys), Z'.
  split; [reflexivity|].
  split; [rewrite repeat_length; exact Hyl|].
  split; [intros row Hin; apply repeat_spec in Hin; subst row; auto|].
  split; [rewrite length_map; exact Hyl|].
  split.
  - rewrite (hd_map_nonempty _ _ 0) by exact Hys. rewrite Hyh, Hxl.
    reflexivity.
  - rewrite (last_map_nonempty _ _ 0) by exact Hys. rewrite Hyt, Hxl.
    reflexivity.
Qed.

Lemma contour_grid_bounds_witness :
  exists X Y Z,
    generate_contour_map
      [Peak2D.mk 1 2 "H1" "C1" 1 "C0" None None;
       Peak2D.mk 3 7 "H2" "C2" 1 "C0" None None]
      100 "Gaussian" 1 0.5 (Some (0, 10)) None = Returns (X, Y, Z)
    /\ List.length X = Z.to_nat 100
    /\ (forall row, In row X ->
          List.length row = Z.to_nat 100
          /\ hd 0 row = 0 - 5 * 1
          /\ last row 0 = 10 + 5 * 1)
    /\ List.length Y = Z.to_nat 100
    /\ hd [] Y = repeat (2 - 5 * 0.5) (Z.to_nat 100)
    /\ last Y [] = repeat (7 + 5 * 0.5) (Z.to_nat 100).
Proof.
  apply (contour_grid_bounds
           [Peak2D.mk 1 2 "H1" "C1" 1 "C0" None None;
            Peak2D.mk 3 7 "H2" "C2" 1 "C0" None None]
           100 "Gaussian" 1 0.5 (Some (0, 10)) None 0 10 2 7).
  - lia.
  - right. left. reflexivity.
  - reflexivity.
  - simpl. split; [discriminate|]. split.
    + rewrite Rmin_left; lra.
    + rewrite Rmax_right; lra.
Defined.

(** C10 (as stated) fails for a grid size below two: with one sample
    the grid holds the padded lower bound only. *)
Lemma single_sample_grid_misses_upper_bound :
  exists v Y Z,
    generate_contour_map [] 1 "gaussian" 1 1 (Some (0, 1)) (Some (0, 1))
    = Returns ([[v]], Y, Z)
    /\ v = 0 - 5 * 1
    /\ v <> 1 + 5 * 1.
Proof.
  eexists _, _, _. split; [reflexivity|].
  split; simpl; lra.
Qed.

(** ** The gradient of the energy *)

Section Derivatives.

Variable C : R.

(** A finite sum is differentiated term by term. *)
Lemma derivable_pt_lim_sum {T} (F : T -> R -> R) (F' : T -> R) x0 l :
  (forall t, In t l -> derivable_pt_lim (F t) x0 (F' t)) ->
  derivable_pt_lim (fun x => Np.sum (map (fun t => F t x) l)) x0
    (Np.sum (map F' l)).
Proof.
  induction l as [|t l IH]; intros H; simpl.
  - apply (derivable_pt_lim_const 0).
  - apply (derivable_pt_lim_plus (F t)
             (fun x => Np.sum (map (fun t => F t x) l))).
    + apply H. left; reflexivity.
    + apply IH. intros u Hu. apply H. right; exact Hu.
Qed.

Lemma derivable_pt_lim_square c x0 :
  derivable_pt_lim (fun x => (x - c) ^ 2) x0 (2 * (x0 - c)).
Proof.
  apply (derivable_pt_lim_ext
           (mult_fct (minus_fct id (fct_cte c)) (minus_fct id (fct_cte c)))).
  - intros z. unfold mult_fct, minus_fct, id, fct_cte. ring.
  - replace (2 * (x0 - c))
      with ((1 - 0) * minus_fct id (fct_cte c) x0
            + minus_fct id (fct_cte c) x0 * (1 - 0))
      by (unfold minus_fct, id, fct_cte; ring).
    apply derivable_pt_lim_mult;
      apply derivable_pt_lim_minus;
      auto using derivable_pt_lim_id, derivable_pt_lim_const.
Qed.

Lemma abs_pow4 y : Rabs y ^ 4 = y ^ 4.
Proof.
  replace (Rabs y ^ 4) with ((Rabs y ^ 2) * (Rabs y ^ 2)) by ring.
  rewrite pow2_abs. ring.
Qed.

Lemma derivable_pt_lim_repulsion c x0 :
  Rabs (x0 - c) > gap_eps ->
  derivable_pt_lim (repulsion_term C c) x0
    (-2 * C * (x0 - c) / Rabs (x0 - c) ^ 4).
Proof.
  intros Hgap.
  assert (Heps : 0 < gap_eps) by (unfold gap_eps; lra).
  assert (Hne : x0 - c <> 0).
  { intros H0. rewrite H0, Rabs_R0 in Hgap. lra. }
  set (delta := Rabs (x0 - c) - gap_eps).
  apply (derivable_pt_lim_locally_ext
           (div_fct (fct_cte C) (fun x => (x - c) ^ 2))
           _ x0 (x0 - delta) (x0 + delta)).
  - unfold delta; lra.
  - intros z Hz. unfold repulsion_term, div_fct, fct_cte.
    assert (Hzc : Rabs (z - c) > gap_eps).
    { pose proof (Rabs_triang_inv (x0 - c) (x0 - z)) as Htri.
      replace (x0 - c - (x0 - z)) with (z - c) in Htri by ring.
      assert (Rabs (x0 - z) < delta)
        by (apply Rabs_def1; unfold delta in *; lra).
      unfold delta in *. lra. }
    destruct (Rgt_dec (Rabs (z - c)) gap_eps); [|contradiction].
    rewrite pow2_abs. reflexivity.
  - replace (-2 * C * (x0 - c) / Rabs (x0 - c) ^ 4)
      with ((0 * (x0 - c) ^ 2 - 2 * (x0 - c) * fct_cte C x0)
            / Rsqr ((x0 - c) ^ 2)).
    + apply (derivable_pt_lim_div (fct_cte C) (fun x => (x - c) ^ 2)).
      * apply derivable_pt_lim_const.
      * apply derivable_pt_lim_square.
      * apply pow_nonzero, Hne.
    + rewrite abs_pow4. unfold fct_cte, Rsqr. field. exact Hne.
Qed.

End Derivatives.

Section EnergyGradient.

Variables (positions positions_original : Np.vec) (C k : R) (i : nat).

Let n := List.length positions.
Let p (j : nat) := nth j positions 0.

Hypothesis i_in_range : (i < n)%nat.

Hypothesis gaps :
  forall j, (j < n)%nat -> j <> i -> Rabs (p i - p j) > gap_eps.

Lemma in_unordered_pairs a b m :
  In (a, b) (unordered_pairs m) -> (a < b < m)%nat.
Proof.
  unfold unordered_pairs. rewrite filter_In, in_prod_iff, !in_seq.
  simpl. rewrite Nat.ltb_lt. lia.
Qed.

Lemma pair_term_moving_first x b :
  b <> i ->
  pair_term (set_nth i x positions) C (i, b) = repulsion_term C (p b) x.
Proof.
  intros Hb. unfold pair_term, repulsion_term. simpl.
  rewrite !nth_set_nth by exact i_in_range.
  rewrite Nat.eqb_refl.
  destruct (Nat.eqb_spec i b); [congruence | reflexivity].
Qed.

Lemma pair_term_moving_second x a :
  a <> i ->
  pair_term (set_nth i x positions) C (a, i) = repulsion_term C (p a) x.
Proof.
  intros Ha. unfold pair_term, repulsion_term. simpl.
  rewrite !nth_set_nth by exact i_in_range.
  rewrite Nat.eqb_refl.
  destruct (Nat.eqb_spec i a); [congruence|].
  fold (p a). rewrite (Rabs_minus_sym (p a) x). reflexivity.
Qed.

Lemma pair_term_fixed x a b :
  a <> i -> b <> i ->
  pair_term (set_nth i x positions) C (a, b) = pair_term positions C (a, b).
Proof.
  intros Ha Hb. unfold pair_term. simpl.
  rewrite !nth_set_nth by exact i_in_range.
  destruct (Nat.eqb_spec i a); [congruence|].
  destruct (Nat.eqb_spec i b); [congruence|].
  reflexivity.
Qed.

Lemma derivable_pt_lim_pair ab :
  In ab (unordered_pairs n) ->
  derivable_pt_lim (fun x => pair_term (set_nth i x positions) C ab)
    (p i) (pair_slope positions C i ab).
Proof.
  destruct ab as [a b]. intros Hin.
  apply in_unordered_pairs in Hin. unfold pair_slope. simpl.
  destruct (Nat.eqb_spec a i) as [->|Ha].
  - apply (derivable_pt_lim_ext (repulsion_term C (p b))).
    + intros z. symmetry. apply pair_term_moving_first. lia.
    + apply derivable_pt_lim_repulsion. apply gaps; lia.
  - destruct (Nat.eqb_spec b i) as [->|Hb].
    + apply (derivable_pt_lim_ext (repulsion_term C (p a))).
      * intros z. symmetry. apply pair_term_moving_second. exact Ha.
      * apply derivable_pt_lim_repulsion. apply gaps; lia.
    + apply (derivable_pt_lim_ext (fct_cte (pair_term positions C (a, b)))).
      * intros z. symmetry. apply pair_term_fixed; assumption.
      * apply derivable_pt_lim_const.
Qed.

Lemma derivable_pt_lim_coulomb :
  derivable_pt_lim
    (fun x => Np.sum (map (pair_term (set_nth i x positions) C)
                        (unordered_pairs n)))
    (p i)
    (Np.sum (map (pair_slope positions C i) (unordered_pairs n))).
Proof.
  apply (derivable_pt_lim_sum
           (fun ab x => pair_term (set_nth i x positions) C ab)).
  intros ab Hin. apply derivable_pt_lim_pair, Hin.
Qed.

End EnergyGradient.

(** The spring sum, differentiated along coordinate [i]. *)
Lemma derivable_pt_lim_spring positions positions_original i x0 :
  (i < List.length positions)%nat ->
  List.length positions_original = List.length positions ->
  derivable_pt_lim
    (fun x => Np.sum (map (fun po => (fst po - snd po) ^ 2)
                        (combine (set_nth i x positions) positions_original)))
    x0 (2 * (x0 - nth i positions_original 0)).
Proof.
  revert positions_original i.
  induction positions as [|a positions IH];
    intros [|o positions_original] [|i] Hi Hlen;
    simpl in *; try lia.
  - replace (2 * (x0 - o)) with (2 * (x0 - o) + 0) by ring.
    apply (derivable_pt_lim_plus (fun x => (x - o) ^ 2)
             (fct_cte (Np.sum (map (fun po => (fst po - snd po) ^ 2)
                                 (combine positions positions_original))))).
    + apply derivable_pt_lim_square.
    + apply derivable_pt_lim_const.
  - replace (2 * (x0 - nth i positions_original 0))
      with (0 + 2 * (x0 - nth i positions_original 0)) by ring.
    apply (derivable_pt_lim_plus (fct_cte ((a - o) ^ 2))
             (fun x => Np.sum (map (fun po => (fst po - snd po) ^ 2)
                                 (combine (set_nth i x positions)
                                    positions_original)))).
    + apply derivable_pt_lim_const.
    + apply IH; lia.
Qed.

(** The partial derivative of [get_energy] along coordinate [i], at a
    configuration where label [i] is further than the threshold from
    every other label. *)
Lemma energy_partial_derivative positions positions_original C k i :
  (i < List.length positions)%nat ->
  List.length positions_original = List.length positions ->
  (forall j, (j < List.length positions)%nat -> j <> i ->
     Rabs (nth i positions 0 - nth j positions 0) > gap_eps) ->
  derivable_pt_lim (energy_along positions positions_original C k i)
    (nth i positions 0)
    (Np.sum (map (pair_slope positions C i)
               (unordered_pairs (List.length positions)))
     + k * (nth i positions 0 - nth i positions_original 0)).
Proof.
  intros Hi Hlen Hgaps.
  apply (derivable_pt_lim_ext
           (plus_fct
              (fun x => Np.sum (map (pair_term (set_nth i x positions) C)
                                  (unordered_pairs (List.length positions))))
              (mult_real_fct (1 / 2 * k)
                 (fun x =>
                    Np.sum (map (fun po => (fst po - snd po) ^ 2)
                              (combine (set_nth i x positions)
                                 positions_original)))))).
  - intros z. unfold energy_along. rewrite energy_as_formula.
    unfold energy_formula, plus_fct, mult_real_fct.
    rewrite set_nth_length. reflexivity.
  - replace (k * (nth i positions 0 - nth i positions_original 0))
      with (1 / 2 * k
            * (2 * (nth i positions 0 - nth i positions_original 0)))
      by field.
    apply derivable_pt_lim_plus.
    + apply derivable_pt_lim_coulomb; assumption.
    + apply derivable_pt_lim_scal, derivable_pt_lim_spring; assumption.
Qed.

(** *** Finite sums over index ranges *)

Lemma sum_map_ext_in {T} (f g : T -> R) l :
  (forall t, In t l -> f t = g t) ->
  Np.sum (map f l) = Np.sum (map g l).
Proof.
  intros H. f_equal. apply map_ext_in, H.
Qed.

Lemma sum_map_plus {T} (f g : T -> R) l :
  Np.sum (map (fun t => f t + g t) l)
  = Np.sum (map f l) + Np.sum (map g l).
Proof.
  induction l as [|t l IH]; simpl; [lra | rewrite IH; lra].
Qed.

Lemma sum_map_opp {T} (f : T -> R) l :
  Np.sum (map (fun t => - f t) l) = - Np.sum (map f l).
Proof.
  induction l as [|t l IH]; simpl; [lra | rewrite IH; lra].
Qed.

Lemma sum_map_zero {T} (l : list T) : Np.sum (map (fun _ => 0) l) = 0.
Proof.
  induction l as [|t l IH]; simpl; [lra | rewrite IH; lra].
Qed.

Lemma sum_point_in s m i v :
  (s <= i < s + m)%nat ->
  Np.sum (map (fun b => if Nat.eqb b i then v else 0) (seq s m)) = v.
Proof.
  revert s; induction m as [|m IH]; intros s Hi; simpl; [lia|].
  destruct (Nat.eqb_spec s i) as [->|Hne].
  - rewrite (sum_map_ext_in _ (fun _ => 0)).
    + rewrite sum_map_zero. lra.
    + intros b Hb. apply in_seq in Hb.
      destruct (Nat.eqb_spec b i); [lia | reflexivity].
  - rewrite IH by lia. lra.
Qed.

Lemma seq_split_at i n :
  (i < n)%nat -> seq 0 n = seq 0 i ++ i :: seq (S i) (n - S i).
Proof.
  intros Hi. replace n with (i + S (n - S i))%nat at 1 by lia.
  rewrite seq_app. reflexivity.
Qed.

(** Summed over all unordered pairs, the slopes are one repulsion slope
    for every label other than [i]. *)
Lemma pair_slopes_by_label positions C i :
  (i < List.length positions)%nat ->
  Np.sum (map (pair_slope positions C i)
            (unordered_pairs (List.length positions)))
  = Np.sum (map (fun j => if Nat.eqb j i then 0
                          else repulsion_slope positions C i j)
              (seq 0 (List.length positions))).
Proof.
  intros Hi. set (n := List.length positions) in *.
  unfold unordered_pairs. rewrite sum_unordered_pairs.
  set (inner := fun a =>
         Np.sum (map (fun b => pair_slope positions C i (a, b))
                   (seq (a + 1) (n - (a + 1))))).
  set (slope := fun j => if Nat.eqb j i then 0
                         else repulsion_slope positions C i j).
  assert (Hbelow : Np.sum (map inner (seq 0 i))
                   = Np.sum (map slope (seq 0 i))).
  { apply sum_map_ext_in. intros a Ha. apply in_seq in Ha.
    unfold inner, slope, pair_slope. simpl.
    destruct (Nat.eqb_spec a i); [lia|].
    apply sum_point_in. lia. }
  assert (Hat : inner i = Np.sum (map slope (seq (S i) (n - S i)))).
  { unfold inner, slope, pair_slope. simpl.
    rewrite Nat.eqb_refl, Nat.add_1_r.
    apply sum_map_ext_in. intros b Hb. apply in_seq in Hb.
    destruct (Nat.eqb_spec b i); [lia | reflexivity]. }
  assert (Habove : Np.sum (map inner (seq (S i) (n - S i))) = 0).
  { rewrite (sum_map_ext_in inner (fun _ => 0)); [apply sum_map_zero|].
    intros a Ha. apply in_seq in Ha. unfold inner.
    rewrite (sum_map_ext_in _ (fun _ => 0)); [apply sum_map_zero|].
    intros b Hb. apply in_seq in Hb. unfold pair_slope. simpl.
    destruct (Nat.eqb_spec a i); [lia|].
    destruct (Nat.eqb_spec b i); [lia | reflexivity]. }
  rewrite (seq_split_at i n Hi), !map_app, !sum_app. simpl.
  rewrite Hbelow, Hat, Habove.
  assert (Hself : slope i = 0)
    by (unfold slope; rewrite Nat.eqb_refl; reflexivity).
  rewrite Hself. lra.
Qed.

(** *** The total forces, entry by entry *)

Lemma masked_assign_length m F vals :
  List.length (Np.masked_assign m F vals) = List.length F.
Proof.
  revert F vals; induction m as [|mr m IH]; intros [|row F] vals;
    simpl; auto.
  destruct (Np.assign_row mr row vals) as [r rest]. simpl.
  rewrite IH. reflexivity.
Qed.

Lemma force_matrix_length positions positions_original C k g :
  List.length (fst (get_force_matrix positions positions_original C k g))
  = List.length positions.
Proof.
  rewrite force_matrix_unfold. simpl.
  rewrite masked_assign_length. apply repulsion_length.
Qed.

Lemma force_matrix_row positions positions_original C k g i :
  List.length positions_original = List.length positions ->
  (i < List.length positions)%nat ->
  nth i (fst (get_force_matrix positions positions_original C k g)) []
  = map (force_entry positions positions_original C k i)
      (seq 0 (List.length positions)).
Proof.
  intros Hlen Hi.
  assert (Hrow : List.length
                   (nth i (fst (get_force_matrix positions
                                  positions_original C k g)) [])
                 = List.length positions).
  { rewrite force_matrix_unfold. simpl. unfold Np.eye.
    rewrite (masked_assign_eye_rows (List.length positions) 0
               (List.length positions));
      auto using repulsion_length, spring_values_length,
        repulsion_rows_square.
    rewrite set_nth_length. apply repulsion_row_length, Hi. }
  apply nth_ext with (d := 0) (d' := 0).
  - rewrite length_map, length_seq. exact Hrow.
  - intros j Hj. rewrite Hrow in Hj.
    rewrite nth_map_seq by exact Hj. simpl.
    apply (force_matrix_entry positions positions_original C k Hlen g i j);
      assumption.
Qed.

Lemma total_forces_entry positions positions_original C k g i :
  List.length positions_original = List.length positions ->
  (i < List.length positions)%nat ->
  nth i (fst (get_total_forces positions positions_original C k g)) 0
  = - Np.sum (map (force_entry positions positions_original C k i)
                (seq 0 (List.length positions))).
Proof.
  intros Hlen Hi. rewrite total_forces_rows.
  rewrite (nth_map_in (fun row : Np.vec => - Np.sum row) _ i [] 0)
    by (rewrite force_matrix_length; exact Hi).
  rewrite force_matrix_row by assumption. reflexivity.
Qed.

(** The partial derivative of [get_energy] with constants [C], [k] is
    entry [i] of [get_total_forces] taken with constants [2 * C] and
    [k / 2]: the repulsion part of the forces carries half of the
    gradient's factor, the spring part twice. *)
Lemma energy_gradient_total_forces positions positions_original C k g i :
  List.length positions_original = List.length positions ->
  (i < List.length positions)%nat ->
  (forall j, (j < List.length positions)%nat -> j <> i ->
     Rabs (nth i positions 0 - nth j positions 0) > gap_eps) ->
  derivable_pt_lim (energy_along positions positions_original C k i)
    (nth i positions 0)
    (nth i (fst (get_total_forces positions positions_original
                   (2 * C) (k / 2) g)) 0).
Proof.
  intros Hlen Hi Hgaps.
  rewrite total_forces_entry by assumption.
  replace (- Np.sum (map (force_entry positions positions_original
                            (2 * C) (k / 2) i)
                       (seq 0 (List.length positions))))
    with (Np.sum (map (pair_slope positions C i)
                    (unordered_pairs (List.length positions)))
          + k * (nth i positions 0 - nth i positions_original 0)).
  - apply energy_partial_derivative; assumption.
  - rewrite pair_slopes_by_label by exact Hi.
    rewrite <- sum_map_opp.
    rewrite <- (sum_point_in 0 (List.length positions) i
                  (k * (nth i positions 0 - nth i positions_original 0)))
      by lia.
    rewrite <- sum_map_plus. apply sum_map_ext_in.
    intros j Hj. apply in_seq in Hj. unfold force_entry.
    rewrite (Nat.eqb_sym i j).
    destruct (Nat.eqb_spec j i) as [->|Hne]; [field|].
    rewrite gtb_true by (apply Hgaps; lia).
    unfold repulsion_slope.
    assert (Hnz : Rabs (nth i positions 0 - nth j positions 0) <> 0).
    { specialize (Hgaps j ltac:(lia) Hne). unfold gap_eps in Hgaps. lra. }
    field. exact Hnz.
Qed.

(** C1 (as stated) fails: at positions [[0; 1; 3]] with originals
    [[1; 1; 3]] and [C = k = 1] all gaps exceed the threshold, yet the
    vector returned by [get_total_forces] is not minus the gradient of
    [get_energy]; along coordinate [0] the energy has slope [29/27]
    while the returned entry is [-26/27]. *)
Lemma total_forces_not_negative_gradient :
  (forall i j, (i < 3)%nat -> (j < 3)%nat -> i <> j ->
     Rabs (nth i [0; 1; 3] 0 - nth j [0; 1; 3] 0) > 1e-8)
  /\ nth 0 (fst (get_total_forces [0; 1; 3] [1; 1; 3] 1 1 (fun _ => 0))) 0
     = - (26 / 27)
  /\ derivable_pt_lim (energy_along [0; 1; 3] [1; 1; 3] 1 1 0) 0 (29 / 27)
  /\ ~ negative_gradient
         (fst (get_total_forces [0; 1; 3] [1; 1; 3] 1 1 (fun _ => 0)))
         [0; 1; 3] [1; 1; 3] 1 1.
Proof.
  assert (Hgaps : forall i j, (i < 3)%nat -> (j < 3)%nat -> i <> j ->
            Rabs (nth i [0; 1; 3] 0 - nth j [0; 1; 3] 0) > gap_eps).
  { intros i j Hi Hj Hij. unfold gap_eps.
    destruct i as [|[|[|i]]]; destruct j as [|[|[|j]]]; simpl;
      try lia; unfold Rabs; destruct (Rcase_abs _); lra. }
  assert (Hforce : forall C k,
            nth 0 (fst (get_total_forces [0; 1; 3] [1; 1; 3] C k
                          (fun _ => 0))) 0
            = - (2 * k - C - C / 27)).
  { intros C k. rewrite total_forces_entry by (simpl; lia).
    unfold force_entry. simpl.
    rewrite !gtb_true
      by (unfold gap_eps, Rabs; destruct (Rcase_abs _); lra).
    replace (Rabs (0 - 1)) with 1
      by (unfold Rabs; destruct (Rcase_abs _); lra).
    replace (Rabs (0 - 3)) with 3
      by (unfold Rabs; destruct (Rcase_abs _); lra).
    lra. }
  assert (Hslope : derivable_pt_lim
                     (energy_along [0; 1; 3] [1; 1; 3] 1 1 0) 0 (29 / 27)).
  { replace (29 / 27)
      with (nth 0 (fst (get_total_forces [0; 1; 3] [1; 1; 3]
                          (2 * 1) (1 / 2) (fun _ => 0))) 0)
      by (rewrite Hforce; lra).
    apply (energy_gradient_total_forces [0; 1; 3] [1; 1; 3] 1 1
             (fun _ => 0) 0); simpl; try lia.
    intros j Hj Hne. apply (Hgaps 0%nat j); lia. }
  split; [exact Hgaps|]. split; [rewrite Hforce; lra|].
  split; [exact Hslope|].
  intros Hneg. specialize (Hneg 0%nat). simpl in Hneg.
  specialize (Hneg ltac:(lia)).
  pose proof (uniqueness_limite _ _ _ _ Hslope Hneg) as Heq.
  rewrite Hforce in Heq. lra.
Qed.

(** ** Worked examples *)

(** Two labels at [0] and [2] with originals [0] and [1]: one repulsion
    term [1 / 2^2] and a spring term [0.5 * (2 - 1)^2]. *)
Example energy_two_labels : get_energy [0; 2] [0; 1] 1 1 = 0.75.
Proof.
  unfold get_energy, spring_energy, coulomb_energy, coulomb_inner,
    coulomb_pair. simpl.
  replace (Rabs (0 - 2)) with 2
    by (unfold Rabs; destruct (Rcase_abs _); lra).
  destruct (Rgt_dec 2 gap_eps) as [_|Hn];
    [lra | unfold gap_eps in Hn; lra].
Qed.

(** The force matrix and the total forces for the same two labels. *)
Example forces_two_labels (g : Np.rng) :
  fst (get_force_matrix [0; 2] [0; 1] 1 1 g)
  = [[-2 * 1 * (0 - 0); 0 + 1 * (0 - 2) / Rabs (0 - 2) ^ 4];
     [0 + 1 * (2 - 0) / Rabs (2 - 0) ^ 4; -2 * 1 * (2 - 1)]]
  /\ nth 1 (fst (get_total_forces [0; 2] [0; 1] 1 1 g)) 0 = 2 - 1 / 8.
Proof.
  split.
  - rewrite force_matrix_unfold. simpl.
    rewrite !gtb_true
      by (unfold gap_eps, Rabs; destruct (Rcase_abs _); lra).
    reflexivity.
  - rewrite total_forces_entry by (simpl; lia).
    unfold force_entry. simpl.
    rewrite gtb_true
      by (unfold gap_eps, Rabs; destruct (Rcase_abs _); lra).
    replace (Rabs (2 - 0)) with 2
      by (unfold Rabs; destruct (Rcase_abs _); lra).
    lra.
Qed.

(** Three samples between [0] and [1]. *)
Example linspace_three :
  exists a b c, linspace 0 1 3 = Returns [a; b; c]
                /\ a = 0 /\ b = 0.5 /\ c = 1.
Proof.
  eexists _, _, _. split; [reflexivity|].
  simpl. repeat split; lra.
Qed.

(** A second way for the synthesiser to raise: no peaks and no limits,
    whatever the kernel. *)
Example empty_peaks_without_limits_raise broadening :
  generate_contour_map [] 100 broadening 1 1 None None
  = Raises (ValueError "min() arg is an empty sequence").
Proof. reflexivity. Qed.

(** * Further properties of the module *)

(** ** Forces *)

(** The closed form of an off-diagonal entry changes sign when the two
    labels are exchanged. *)
Lemma force_entry_antisym positions positions_original C k i j :
  i <> j ->
  force_entry positions positions_original C k i j
  = - force_entry positions positions_original C k j i.
Proof.
  intros Hij. unfold force_entry.
  destruct (Nat.eqb_spec i j); [contradiction|].
  destruct (Nat.eqb_spec j i); [congruence|].
  rewrite (Rabs_minus_sym (nth j positions 0) (nth i positions 0)).
  destruct (Np.gtb _ gap_eps); [|lra].
  unfold Rdiv. ring.
Qed.

(** X1. Off-diagonal entries of the force matrix are antisymmetric:
    the force label [i] feels from label [j] is minus the force [j]
    feels from [i]. *)
Theorem force_matrix_antisymmetric positions positions_original C k g i j :
  List.length positions_original = List.length positions ->
  (i < List.length positions)%nat -> (j < List.length positions)%nat ->
  i <> j ->
  Np.entry (fst (get_force_matrix positions positions_original C k g)) i j
  = - Np.entry (fst (get_force_matrix positions positions_original C k g))
        j i.
Proof.
  intros Hlen Hi Hj Hij.
  rewrite !(force_matrix_entry positions positions_original C k Hlen g)
    by assumption.
  apply force_entry_antisym, Hij.
Qed.

Lemma force_matrix_antisymmetric_witness :
  Np.entry (fst (get_force_matrix [0; 2; 3] [0; 1; 3] 1 1 (fun _ => 7))) 0 2
  = - Np.entry (fst (get_force_matrix [0; 2; 3] [0; 1; 3] 1 1
                       (fun _ => 7))) 2 0.
Proof.
  apply (force_matrix_antisymmetric [0; 2; 3] [0; 1; 3] 1 1 (fun _ => 7)
           0%nat 2%nat); simpl; lia.
Defined.

Lemma force_matrix_rows_square positions positions_original C k g :
  List.length positions_original = List.length positions ->
  Forall (fun row => List.length row = List.length positions)
    (fst (get_force_matrix positions positions_original C k g)).
Proof.
  intros Hlen. apply Forall_forall. intros row Hin.
  destruct (In_nth _ _ [] Hin) as (i & Hi & <-).
  rewrite force_matrix_length in Hi.
  rewrite force_matrix_row by assumption.
  rewrite length_map, length_seq. reflexivity.
Qed.

(** X2. For [n] positions and [n] originals the force matrix is
    [n] by [n] and the vector of total forces has [n] entries. *)
Theorem force_shapes positions positions_original C k g :
  List.length positions_original = List.length positions ->
  has_shape (fst (get_force_matrix positions positions_original C k g))
    (List.length positions) (List.length positions)
  /\ List.length (fst (get_total_forces positions positions_original C k g))
     = List.length positions.
Proof.
  intros Hlen. split; [split|].
  - apply force_matrix_length.
  - apply force_matrix_rows_square, Hlen.
  - rewrite total_forces_rows, length_map. apply force_matrix_length.
Qed.

Lemma force_shapes_witness :
  has_shape (fst (get_force_matrix [0; 2; 3] [0; 1; 3] 1 1 (fun _ => 7)))
    3 3
  /\ List.length (fst (get_total_forces [0; 2; 3] [0; 1; 3] 1 1
                         (fun _ => 7))) = 3%nat.
Proof.
  apply (force_shapes [0; 2; 3] [0; 1; 3] 1 1 (fun _ => 7)). reflexivity.
Defined.

(** X3. On every input, [get_force_matrix] and [get_total_forces] hand
    the random generator back untouched, and what they return does not
    depend on it. *)
Theorem forces_ignore_generator positions positions_original C k g g' :
  snd (get_force_matrix positions positions_original C k g) = g
  /\ snd (get_total_forces positions positions_original C k g) = g
  /\ fst (get_force_matrix positions positions_original C k g)
     = fst (get_force_matrix positions positions_original C k g')
  /\ fst (get_total_forces positions positions_original C k g)
     = fst (get_total_forces positions positions_original C k g').
Proof.
  assert (Hg : forall h,
             snd (get_total_forces positions positions_original C k h) = h).
  { intros h. unfold get_total_forces.
    rewrite force_matrix_unfold. reflexivity. }
  repeat split.
  - rewrite force_matrix_unfold. reflexivity.
  - apply Hg.
  - rewrite !force_matrix_unfold. reflexivity.
  - rewrite !total_forces_rows, !force_matrix_unfold. reflexivity.
Qed.

(** X5. Where label [i] is further than [1e-8] from every other label,
    the partial derivative of [get_energy] with constants [C], [k] along
    coordinate [i] exists and is entry [i] of [get_total_forces]
    evaluated with the constants [2 * C] and [k / 2]. *)
Theorem energy_slope_is_rescaled_force positions positions_original C k g i :
  List.length positions_original = List.length positions ->
  (i < List.length positions)%nat ->
  (forall j, (j < List.length positions)%nat -> j <> i ->
     Rabs (nth i positions 0 - nth j positions 0) > 1e-8) ->
  derivable_pt_lim
    (fun x => get_energy (set_nth i x positions) positions_original C k)
    (nth i positions 0)
    (nth i (fst (get_total_forces positions positions_original
                   (2 * C) (k / 2) g)) 0).
Proof.
  intros Hlen Hi Hgaps.
  apply (energy_gradient_total_forces positions positions_original C k g i);
    assumption.
Qed.

Lemma energy_slope_is_rescaled_force_witness :
  derivable_pt_lim
    (fun x => get_energy (set_nth 1 x [0; 2; 3]) [0; 1; 3] 0.01 0.00001)
    (nth 1 [0; 2; 3] 0)
    (nth 1 (fst (get_total_forces [0; 2; 3] [0; 1; 3]
                   (2 * 0.01) (0.00001 / 2) (fun _ => 7))) 0).
Proof.
  apply (energy_slope_is_rescaled_force [0; 2; 3] [0; 1; 3] 0.01 0.00001
           (fun _ => 7) 1%nat); simpl; try lia.
  intros j Hj Hne.
  destruct j as [|[|[|j]]]; simpl; try lia;
    unfold Rabs; destruct (Rcase_abs _); lra.
Defined.

(** ** Energy *)

Lemma in_unordered_pairs_bound a b m :
  In (a, b) (unordered_pairs m) -> (a < b < m)%nat.
Proof.
  unfold unordered_pairs. rewrite filter_In, in_prod_iff, !in_seq.
  simpl. rewrite Nat.ltb_lt. lia.
Qed.

Lemma pair_term_shift positions C c ab :
  In ab (unordered_pairs (List.length positions)) ->
  pair_term (map (fun p => p + c) positions) C ab
  = pair_term positions C ab.
Proof.
  destruct ab as [a b]. intros Hin.
  apply in_unordered_pairs_bound in Hin. unfold pair_term. simpl.
  rewrite !(nth_map_in (fun p => p + c) positions _ 0 0) by lia.
  replace (nth a positions 0 + c - (nth b positions 0 + c))
    with (nth a positions 0 - nth b positions 0) by ring.
  reflexivity.
Qed.

Lemma spring_shift (p o : Np.vec) c :
  Np.sum (map (fun po => (fst po - snd po) ^ 2)
            (combine (map (fun x => x + c) p) (map (fun x => x + c) o)))
  = Np.sum (map (fun po => (fst po - snd po) ^ 2) (combine p o)).
Proof.
  revert o; induction p as [|a p IH]; intros [|b o]; try reflexivity.
  cbn [map combine Np.sum fold_right fst snd].
  fold (Np.sum (map (fun po => (fst po - snd po) ^ 2)
                  (combine (map (fun x => x + c) p)
                     (map (fun x => x + c) o)))).
  fold (Np.sum (map (fun po => (fst po - snd po) ^ 2) (combine p o))).
  rewrite IH. ring.
Qed.

(** X6. The energy depends on the labels only through their mutual gaps
    and their displacements: moving all positions and all originals by
    the same amount leaves [get_energy] unchanged. *)
Theorem energy_translation_invariant positions positions_original C k c :
  get_energy (map (fun p => p + c) positions)
    (map (fun p => p + c) positions_original) C k
  = get_energy positions positions_original C k.
Proof.
  rewrite !energy_as_formula. unfold energy_formula.
  rewrite length_map, spring_shift. f_equal.
  apply sum_map_ext_in. intros ab Hin. apply pair_term_shift, Hin.
Qed.

(** *** Configurations of zero energy *)

Lemma sum_zero_all_zero v :
  Forall (fun a => 0 <= a) v -> Np.sum v = 0 -> Forall (fun a => a = 0) v.
Proof.
  induction 1 as [|a v Ha Hv IH]; simpl; intros Hs; constructor.
  - pose proof (sum_nonneg v Hv). lra.
  - apply IH. pose proof (sum_nonneg v Hv). lra.
Qed.

Lemma sum_all_zero v : Forall (fun a => a = 0) v -> Np.sum v = 0.
Proof.
  induction 1 as [|a v Ha Hv IH]; simpl; [reflexivity | lra].
Qed.

Lemma pair_term_zero_iff positions C ab :
  0 < C ->
  (pair_term positions C ab = 0
   <-> Rabs (nth (fst ab) positions 0 - nth (snd ab) positions 0)
       <= gap_eps).
Proof.
  intros HC. unfold pair_term.
  destruct (Rgt_dec _ gap_eps) as [Hgt|Hle].
  - split; [|lra]. intros H0. exfalso.
    assert (Hpos : 0 < C / Rabs (nth (fst ab) positions 0
                                 - nth (snd ab) positions 0) ^ 2).
    { apply Rmult_lt_0_compat; [exact HC|].
      apply Rinv_0_lt_compat, pow_lt. unfold gap_eps in Hgt. lra. }
    lra.
  - split; [lra | reflexivity].
Qed.

Lemma squares_zero_iff (p o : Np.vec) :
  List.length o = List.length p ->
  (Np.sum (map (fun po => (fst po - snd po) ^ 2) (combine p o)) = 0
   <-> p = o).
Proof.
  revert o; induction p as [|a p IH]; intros [|b o] Hlen;
    try discriminate Hlen.
  - split; reflexivity.
  - change (Np.sum (map (fun po => (fst po - snd po) ^ 2)
                      (combine (a :: p) (b :: o))))
      with ((a - b) ^ 2
            + Np.sum (map (fun po => (fst po - snd po) ^ 2)
                        (combine p o))).
    injection Hlen as Hlen.
    pose proof (squares_sum_nonneg (combine p o)) as Hrest.
    pose proof (pow2_ge_0 (a - b)) as Hsq.
    split.
    + intros Hs.
      assert (Hab : (a - b) ^ 2 = 0) by lra.
      assert (Hr : Np.sum (map (fun po => (fst po - snd po) ^ 2)
                            (combine p o)) = 0) by lra.
      apply IH in Hr; [|exact Hlen]. subst o. f_equal.
      simpl in Hab. nra.
    + intros Heq. inversion Heq; subst.
      assert (Hr : Np.sum (map (fun po => (fst po - snd po) ^ 2)
                            (combine o o)) = 0)
        by (apply IH; reflexivity).
      rewrite Hr. ring.
Qed.

Lemma energy_zero_characterised positions positions_original C k :
  C > 0 -> k > 0 ->
  List.length positions_original = List.length positions ->
  (get_energy positions positions_original C k = 0
   <-> positions = positions_original
       /\ forall i j, (i < j < List.length positions)%nat ->
            Rabs (nth i positions 0 - nth j positions 0) <= gap_eps).
Proof.
  intros HC Hk Hlen. rewrite energy_as_formula. unfold energy_formula.
  set (pairs := map (pair_term positions C)
                  (unordered_pairs (List.length positions))).
  set (springs := Np.sum (map (fun po => (fst po - snd po) ^ 2)
                            (combine positions positions_original))).
  assert (Hpn : Forall (fun a => 0 <= a) pairs).
  { apply Forall_forall. intros v Hin. apply in_map_iff in Hin.
    destruct Hin as (ab & <- & _). apply pair_term_nonneg. lra. }
  assert (Hsn : 0 <= springs) by apply squares_sum_nonneg.
  pose proof (sum_nonneg pairs Hpn) as Hps.
  split.
  - intros H0.
    assert (Hs0 : springs = 0) by nra.
    assert (Hp0 : Np.sum pairs = 0) by nra.
    split; [apply squares_zero_iff; assumption|].
    intros i j Hij.
    apply sum_zero_all_zero in Hp0; [|exact Hpn].
    rewrite Forall_forall in Hp0.
    apply (pair_term_zero_iff positions C (i, j)); [lra|].
    apply Hp0. unfold pairs. apply in_map.
    unfold unordered_pairs. rewrite filter_In, in_prod_iff, !in_seq.
    simpl. rewrite Nat.ltb_lt. lia.
  - intros [Heq Hgaps].
    assert (Hs0 : springs = 0) by (apply squares_zero_iff; assumption).
    assert (Hp0 : Np.sum pairs = 0).
    { apply sum_all_zero, Forall_forall. intros v Hin.
      apply in_map_iff in Hin. destruct Hin as ([a b] & <- & Hab).
      apply in_unordered_pairs_bound in Hab.
      apply pair_term_zero_iff; [lra|]. simpl. apply Hgaps. lia. }
    rewrite Hs0, Hp0. ring.
Qed.

(** X7. For positive constants, [get_energy] is zero exactly when every
    label sits on its original and all labels lie within [1e-8] of one
    another; any two labels further apart make the energy positive. *)
Theorem energy_zero_iff_at_rest positions positions_original C k :
  C > 0 -> k > 0 ->
  List.length positions_original = List.length positions ->
  (get_energy positions positions_original C k = 0
   <-> positions = positions_original
       /\ forall i j, (i < j < List.length positions)%nat ->
            Rabs (nth i positions 0 - nth j positions 0) <= 1e-8).
Proof.
  apply energy_zero_characterised.
Qed.

Lemma energy_zero_iff_at_rest_witness :
  get_energy [4; 4; 4] [4; 4; 4] 0.01 0.00001 = 0
  <-> [4; 4; 4] = [4; 4; 4]
      /\ forall i j, (i < j < List.length [4; 4; 4])%nat ->
           Rabs (nth i [4; 4; 4] 0 - nth j [4; 4; 4] 0) <= 1e-8.
Proof.
  apply (energy_zero_iff_at_rest [4; 4; 4] [4; 4; 4] 0.01 0.00001);
    [lra | lra | reflexivity].
Defined.

(** ** The optimiser's bookkeeping *)

(** *** Minimum and maximum of an array *)

Lemma fold_Rmin_le_init l a : fold_left Rmin l a <= a.
Proof.
  revert a; induction l as [|b l IH]; intros a; simpl; [lra|].
  pose proof (IH (Rmin a b)). pose proof (Rmin_l a b). lra.
Qed.

Lemma fold_Rmin_le_in l a x : In x l -> fold_left Rmin l a <= x.
Proof.
  revert a; induction l as [|b l IH]; intros a; simpl; [tauto|].
  intros [->|Hin]; [|apply IH, Hin].
  pose proof (fold_Rmin_le_init l (Rmin a x)). pose proof (Rmin_r a x). lra.
Qed.

Lemma fold_Rmin_in l a : In (fold_left Rmin l a) (a :: l).
Proof.
  revert a; induction l as [|b l IH]; intros a; simpl; [auto|].
  destruct (IH (Rmin a b)) as [Heq|Hin]; [|auto].
  rewrite <- Heq. unfold Rmin. destruct (Rle_dec a b); auto.
Qed.

Lemma fold_Rmax_ge_init l a : a <= fold_left Rmax l a.
Proof.
  revert a; induction l as [|b l IH]; intros a; simpl; [lra|].
  pose proof (IH (Rmax a b)). pose proof (Rmax_l a b). lra.
Qed.

Lemma fold_Rmax_ge_in l a x : In x l -> x <= fold_left Rmax l a.
Proof.
  revert a; induction l as [|b l IH]; intros a; simpl; [tauto|].
  intros [->|Hin]; [|apply IH, Hin].
  pose proof (fold_Rmax_ge_init l (Rmax a x)). pose proof (Rmax_r a x). lra.
Qed.

Lemma fold_Rmax_in l a : In (fold_left Rmax l a) (a :: l).
Proof.
  revert a; induction l as [|b l IH]; intros a; simpl; [auto|].
  destruct (IH (Rmax a b)) as [Heq|Hin]; [|auto].
  rewrite <- Heq. unfold Rmax. destruct (Rle_dec a b); auto.
Qed.

Lemma np_min_le l x : In x l -> Np.min l <= x.
Proof.
  destruct l as [|a l]; simpl; [tauto|].
  intros [<-|Hin]; [apply fold_Rmin_le_init | apply fold_Rmin_le_in, Hin].
Qed.

Lemma np_max_ge l x : In x l -> x <= Np.max l.
Proof.
  destruct l as [|a l]; simpl; [tauto|].
  intros [<-|Hin]; [apply fold_Rmax_ge_init | apply fold_Rmax_ge_in, Hin].
Qed.

Lemma np_min_in l : l <> [] -> In (Np.min l) l.
Proof.
  destruct l as [|a l]; [contradiction|]. intros _. apply fold_Rmin_in.
Qed.

Lemma np_max_in l : l <> [] -> In (Np.max l) l.
Proof.
  destruct l as [|a l]; [contradiction|]. intros _. apply fold_Rmax_in.
Qed.

Lemma np_min_perm l m : Permutation l m -> Np.min l = Np.min m.
Proof.
  intros Hp. destruct l as [|a l].
  - apply Permutation_nil in Hp. subst. reflexivity.
  - assert (Hl : a :: l <> []) by discriminate.
    assert (Hm : m <> []).
    { intros ->. apply Permutation_sym, Permutation_nil in Hp.
      discriminate. }
    apply Rle_antisym.
    + apply np_min_le, (Permutation_in _ (Permutation_sym Hp)),
        np_min_in, Hm.
    + apply np_min_le, (Permutation_in _ Hp), np_min_in, Hl.
Qed.

Lemma np_max_perm l m : Permutation l m -> Np.max l = Np.max m.
Proof.
  intros Hp. destruct l as [|a l].
  - apply Permutation_nil in Hp. subst. reflexivity.
  - assert (Hl : a :: l <> []) by discriminate.
    assert (Hm : m <> []).
    { intros ->. apply Permutation_sym, Permutation_nil in Hp.
      discriminate. }
    apply Rle_antisym.
    + apply np_max_ge, (Permutation_in _ Hp), np_max_in, Hl.
    + apply np_max_ge, (Permutation_in _ (Permutation_sym Hp)),
        np_max_in, Hm.
Qed.

Lemma original_range_nonneg l : 0 <= original_range l.
Proof.
  unfold original_range. destruct l as [|a l]; [simpl; lra|].
  pose proof (np_min_le (a :: l) a (or_introl eq_refl)).
  pose proof (np_max_ge (a :: l) a (or_introl eq_refl)). lra.
Qed.

(** *** The sorted positions *)

Lemma insert_key_Rle_hdrel a p l :
  key_Rle a p -> HdRel key_Rle a l -> HdRel key_Rle a (insert_key Rleb p l).
Proof.
  intros Hap Hal. destruct l as [|q l]; simpl.
  - constructor. exact Hap.
  - destruct (Rleb (fst p) (fst q)); constructor; auto.
    inversion Hal; auto.
Qed.

Lemma insert_key_Rle_sorted p l :
  Sorted key_Rle l -> Sorted key_Rle (insert_key Rleb p l).
Proof.
  induction 1 as [|q l Hs IH Hhd]; simpl.
  - repeat constructor.
  - unfold Rleb. destruct (Rle_dec (fst p) (fst q)) as [Hle|Hnle].
    + constructor; [constructor; auto | constructor; exact Hle].
    + constructor; [exact IH|].
      apply insert_key_Rle_hdrel; [unfold key_Rle; lra | exact Hhd].
Qed.

Lemma sort_keys_Rle_sorted keys : Sorted key_Rle (sort_keys Rleb keys).
Proof.
  unfold sort_keys.
  induction (combine keys (seq 0 (List.length keys))) as [|p l IH]; simpl.
  - constructor.
  - apply insert_key_Rle_sorted, IH.
Qed.

Lemma sorted_positions_keys positions :
  sorted_positions positions = map fst (sort_keys Rleb positions).
Proof.
  unfold sorted_positions, Np.take.
  symmetry. apply sort_keys_fst.
Qed.

Lemma sorted_positions_ascending positions :
  StronglySorted Rle (sorted_positions positions).
Proof.
  rewrite sorted_positions_keys.
  assert (H : StronglySorted key_Rle (sort_keys Rleb positions)).
  { apply Sorted_StronglySorted; [|apply sort_keys_Rle_sorted].
    intros a b c; unfold key_Rle; lra. }
  induction H as [|p l Hs IH Hall]; simpl; constructor; auto.
  rewrite Forall_map. exact Hall.
Qed.

Lemma sorted_positions_perm positions :
  Permutation (sorted_positions positions) positions.
Proof.
  rewrite sorted_positions_keys. apply sorted_keys_perm.
Qed.

(** X8. The positions the optimiser works on are the input in ascending
    order: a rearrangement of the input in which no entry is followed by
    a smaller one. *)
Theorem sorted_positions_sorts positions :
  Permutation (sorted_positions positions) positions
  /\ StronglySorted Rle (sorted_positions positions).
Proof.
  split; [apply sorted_positions_perm | apply sorted_positions_ascending].
Qed.

(** *** The normalised starting point *)

Lemma sorted_min_hd a l :
  StronglySorted Rle (a :: l) -> Np.min (a :: l) = a.
Proof.
  intros Hs. inversion Hs as [|? ? _ Hall]; subst.
  apply Rle_antisym.
  - apply np_min_le. left; reflexivity.
  - destruct (np_min_in (a :: l)) as [<-|Hin]; [discriminate | lra |].
    rewrite Forall_forall in Hall. apply Hall, Hin.
Qed.

Lemma sorted_le_last l x :
  StronglySorted Rle l -> In x l -> x <= last l 0.
Proof.
  intros Hs; revert x.
  induction Hs as [|a l Hs IH Hall]; intros x; [contradiction|].
  intros [<-|Hin].
  - destruct l as [|b l]; [simpl; lra|].
    change (last (a :: b :: l) 0) with (last (b :: l) 0).
    rewrite Forall_forall in Hall.
    apply Rle_trans with b; [apply Hall; left; reflexivity|].
    apply IH. left; reflexivity.
  - destruct l as [|b l]; [contradiction|].
    change (last (a :: b :: l) 0) with (last (b :: l) 0).
    apply IH, Hin.
Qed.

Lemma last_in (l : Np.vec) : l <> [] -> In (last l 0) l.
Proof.
  intros Hl. rewrite (app_removelast_last 0 Hl) at 2.
  apply in_or_app. right. left. reflexivity.
Qed.

Lemma sorted_max_last l :
  StronglySorted Rle l -> l <> [] -> Np.max l = last l 0.
Proof.
  intros Hs Hl. apply Rle_antisym.
  - apply sorted_le_last; [exact Hs | apply np_max_in, Hl].
  - apply np_max_ge, last_in, Hl.
Qed.

Lemma range_nonzero_nonempty l : original_range l <> 0 -> l <> [].
Proof.
  intros Hr ->. apply Hr. unfold original_range. simpl. lra.
Qed.

Lemma normalised_unit_interval l :
  original_range l <> 0 ->
  Forall (fun v => 0 <= v <= 1) (normalised l).
Proof.
  intros Hr. pose proof (original_range_nonneg l) as Hnn.
  assert (Hpos : 0 < original_range l) by lra.
  unfold normalised. rewrite Forall_map. apply Forall_forall.
  intros p Hin.
  pose proof (np_min_le l p Hin) as Hlo.
  pose proof (np_max_ge l p Hin) as Hhi.
  assert (Hinv : 0 < / original_range l) by (apply Rinv_0_lt_compat, Hpos).
  unfold Rdiv. split.
  - apply Rmult_le_pos; lra.
  - replace 1 with (original_range l * / original_range l)
      by (apply Rinv_r; lra).
    apply Rmult_le_compat_r; [lra|].
    unfold original_range in *. lra.
Qed.

Lemma normalised_endpoints l :
  StronglySorted Rle l -> original_range l <> 0 ->
  nth 0 (normalised l) 0 = 0 /\ last (normalised l) 0 = 1.
Proof.
  intros Hs Hr. pose proof (range_nonzero_nonempty l Hr) as Hl.
  unfold normalised. split.
  - destruct l as [|a l]; [contradiction|].
    cbn [map nth]. rewrite (sorted_min_hd a l Hs).
    unfold Rdiv. ring.
  - rewrite (last_map_nonempty _ _ 0) by exact Hl.
    rewrite <- (sorted_max_last l Hs Hl).
    unfold original_range in *. field. exact Hr.
Qed.

Lemma start_satisfies_constraints l :
  StronglySorted Rle l -> original_range l <> 0 ->
  Forall (satisfied (normalised l)) (layout_constraints (normalised l)).
Proof.
  intros Hs Hr.
  pose proof (normalised_unit_interval l Hr) as Hunit.
  unfold layout_constraints. repeat constructor; simpl.
  - ring.
  - ring.
  - revert Hunit. apply Forall_impl. intros v Hv. lra.
  - rewrite Forall_map. revert Hunit. apply Forall_impl.
    intros v Hv. lra.
Qed.

(** X9. Unless all labels coincide, the point at which the minimiser is
    started is feasible: it is handed the four constraints of lines
    186-192, the normalised sorted positions satisfy all of them, the
    first of them is [0] and the last is [1]. *)
Theorem starting_point_feasible minimize g positions max_iters C k ftol :
  original_range (sorted_positions positions) <> 0 ->
  let x0 := normalised (sorted_positions positions) in
  minimiser_result minimize g (sorted_positions positions) max_iters C k ftol
  = minimize g (fun x => get_energy x x0 C k)
      (fun g x => get_total_forces x x0 C k g)
      x0 (layout_constraints x0) max_iters ftol
  /\ Forall (satisfied x0) (layout_constraints x0)
  /\ nth 0 x0 0 = 0
  /\ last x0 0 = 1.
Proof.
  intros Hr x0. split; [reflexivity|].
  pose proof (sorted_positions_ascending positions) as Hs.
  split; [apply start_satisfies_constraints; assumption|].
  apply normalised_endpoints; assumption.
Qed.

Lemma range_5_1_3 : original_range (sorted_positions [5; 1; 3]) <> 0.
Proof.
  unfold sorted_positions.
  destruct argsort_5_1_3 as [-> _].
  unfold original_range. simpl.
  rewrite (Rmax_right 1 3), (Rmax_right 3 5) by lra.
  rewrite (Rmin_left 1 3), (Rmin_left 1 5) by lra. lra.
Qed.

Lemma starting_point_feasible_witness :
  Forall (satisfied (normalised (sorted_positions [5; 1; 3])))
    (layout_constraints (normalised (sorted_positions [5; 1; 3])))
  /\ nth 0 (normalised (sorted_positions [5; 1; 3])) 0 = 0
  /\ last (normalised (sorted_positions [5; 1; 3])) 0 = 1.
Proof.
  destruct (starting_point_feasible
              (fun g _ _ x0 _ _ _ => (x0, g)) (fun _ => 0)
              [5; 1; 3] 10000 0.01 0.00001 0.001 range_5_1_3)
    as (_ & H).
  exact H.
Defined.

(** *** What comes back from the minimiser *)

Lemma inverse_of_order order n r :
  Permutation order (seq 0 n) -> (r < n)%nat ->
  nth (nth r order 0%nat) (argsort Nat.leb order) 0%nat = r.
Proof.
  intros Hp Hr.
  assert (Hlen : List.length order = n)
    by (rewrite (Permutation_length Hp); apply length_seq).
  assert (Hinv : Permutation (argsort Nat.leb order) (seq 0 n))
    by (rewrite argsort_perm, Hlen; reflexivity).
  assert (Hlinv : List.length (argsort Nat.leb order) = n)
    by (rewrite (Permutation_length Hinv); apply length_seq).
  set (i := nth r order 0%nat).
  assert (Hi : (i < n)%nat).
  { apply (perm_seq_bound order n i Hp). apply nth_In. lia. }
  assert (Hback : nth (nth i (argsort Nat.leb order) 0%nat) order 0%nat = i).
  { pose proof (argsort_inverts order n Hp) as Hmap.
    apply (f_equal (fun l => nth i l 0%nat)) in Hmap.
    rewrite (nth_map_in _ _ _ 0%nat) in Hmap by lia.
    rewrite seq_nth in Hmap by exact Hi. exact Hmap. }
  assert (Hnd : NoDup order).
  { apply (Permutation_NoDup (Permutation_sym Hp)), seq_NoDup. }
  rewrite NoDup_nth in Hnd. apply (Hnd _ _); try lia.
  - assert (Hin : In (nth i (argsort Nat.leb order) 0%nat)
                    (argsort Nat.leb order)) by (apply nth_In; lia).
    apply (perm_seq_bound _ _ _ Hinv) in Hin. lia.
  - exact Hback.
Qed.

Lemma last_as_nth {A} (l : list A) d :
  last l d = nth (List.length l - 1) l d.
Proof.
  induction l as [|a l IH]; [reflexivity|].
  destruct l as [|b l]; [reflexivity|].
  change (last (a :: b :: l) d) with (last (b :: l) d).
  rewrite IH. simpl. rewrite Nat.sub_0_r. reflexivity.
Qed.

Section MinimiserFacts.

Variable minimize :
  Np.rng -> (Np.vec -> R) -> (Np.rng -> Np.vec -> Np.vec * Np.rng) ->
  Np.vec -> list constraint -> Z -> R -> Np.vec * Np.rng.

Variables (g : Np.rng) (positions : Np.vec) (max_iters : Z) (C k ftol : R).

Let n := List.length positions.
Let order := argsort Rleb positions.
Let sorted := sorted_positions positions.
Let res := fst (minimiser_result minimize g sorted max_iters C k ftol).
Let out := fst (optimise_annotations minimize g positions max_iters C k ftol).

Hypothesis enough_labels : (3 <= n)%nat.

Lemma optimise_output_take :
  out = Np.take (map (fun p => p * original_range sorted + Np.min sorted)
                   res)
          (argsort Nat.leb order).
Proof.
  unfold out. rewrite optimise_unfold by exact enough_labels. reflexivity.
Qed.

Lemma optimise_output_slot r :
  List.length res = n -> (r < n)%nat ->
  nth (nth r order 0%nat) out 0
  = nth r res 0 * original_range sorted + Np.min sorted.
Proof.
  intros Hres Hr. rewrite optimise_output_take.
  assert (Hperm : Permutation order (seq 0 n)) by apply argsort_perm.
  assert (Hlo : List.length order = n) by apply argsort_length.
  assert (Hli : List.length (argsort Nat.leb order) = n)
    by (rewrite argsort_length; exact Hlo).
  assert (Hi : (nth r order 0%nat < n)%nat).
  { apply (perm_seq_bound order n _ Hperm). apply nth_In. lia. }
  unfold Np.take.
  rewrite (nth_map_in _ _ _ 0%nat) by lia.
  rewrite (inverse_of_order order n r Hperm Hr).
  rewrite (nth_map_in _ _ _ 0) by lia. reflexivity.
Qed.

Lemma optimise_minimum_pinned :
  original_range sorted <> 0 ->
  List.length res = n ->
  nth 0 res 0 - nth 0 (normalised sorted) 0 = 0 ->
  nth (nth 0 order 0%nat) out 0 = Np.min positions.
Proof.
  intros Hr Hres Hfirst.
  pose proof (sorted_positions_ascending positions) as Hs.
  pose proof (sorted_positions_perm positions) as Hp.
  fold sorted in Hs, Hp.
  destruct (normalised_endpoints sorted Hs Hr) as [H0 _].
  assert (Hmin : Np.min sorted = Np.min positions)
    by apply np_min_perm, Hp.
  rewrite optimise_output_slot by (auto; lia).
  replace (nth 0 res 0) with 0 by lra. rewrite <- Hmin. ring.
Qed.

Lemma optimise_output_above_minimum :
  List.length res = n ->
  Forall (fun v => 0 <= v) res ->
  Forall (fun v => Np.min positions <= v) out.
Proof.
  intros Hres Hnonneg.
  pose proof (sorted_positions_perm positions) as Hp. fold sorted in Hp.
  rewrite <- (np_min_perm _ _ Hp).
  pose proof (original_range_nonneg sorted) as Hnn.
  rewrite optimise_output_take. unfold Np.take.
  rewrite Forall_map. apply Forall_forall. intros i Hin.
  assert (Hi : (i < n)%nat).
  { apply (Permutation_in _ (argsort_perm Nat.leb order)), in_seq in Hin.
    unfold order in Hin. rewrite argsort_length in Hin. fold n in Hin.
    lia. }
  rewrite (nth_map_in _ _ _ 0) by lia.
  rewrite Forall_forall in Hnonneg.
  assert (Hv : 0 <= nth i res 0) by (apply Hnonneg, nth_In; lia).
  nra.
Qed.

End MinimiserFacts.

Lemma constraints_unpack res x0 :
  Forall (satisfied res) (layout_constraints x0) ->
  nth 0 res 0 - nth 0 x0 0 = 0
  /\ last res 0 - last x0 0 = 0
  /\ Forall (fun v => 0 <= v <= 1) res.
Proof.
  unfold layout_constraints. intros H.
  inversion H as [|? ? H1 H']; subst.
  inversion H' as [|? ? H2 H'']; subst.
  inversion H'' as [|? ? H3 H''']; subst.
  inversion H''' as [|? ? H4 _]; subst.
  simpl in H1, H2, H3, H4. repeat split; auto.
  rewrite Forall_map in H4. rewrite Forall_forall in *.
  intros v Hv. specialize (H3 v Hv). specialize (H4 v Hv). lra.
Qed.

(** X11. With three or more labels that do not all coincide, whenever
    the minimiser returns a vector of the right length that satisfies
    the constraints it was given, the smallest label comes back
    unchanged: the result holds the minimum of the input at the index of
    the first sorted label. *)
Theorem optimise_pins_minimum minimize g positions max_iters C k ftol :
  (3 <= List.length positions)%nat ->
  original_range (sorted_positions positions) <> 0 ->
  let x0 := normalised (sorted_positions positions) in
  let res := fst (minimiser_result minimize g (sorted_positions positions)
                    max_iters C k ftol) in
  let order := argsort Rleb positions in
  let out :=
    fst (optimise_annotations minimize g positions max_iters C k ftol) in
  List.length res = List.length positions ->
  Forall (satisfied res) (layout_constraints x0) ->
  nth (nth 0 order 0%nat) out 0 = Np.min positions.
Proof.
  intros Hn Hr x0 res order out Hlen Hsat.
  destruct (constraints_unpack res x0 Hsat) as (H0 & _ & _).
  apply optimise_minimum_pinned; assumption.
Qed.

Lemma identity_result_5_1_3 :
  fst (minimiser_result (fun g _ _ x0 _ _ _ => (x0, g)) (fun _ => 0)
         (sorted_positions [5; 1; 3]) 10000 0.01 0.00001 0.001)
  = normalised (sorted_positions [5; 1; 3]).
Proof. reflexivity. Qed.

Lemma optimise_pins_minimum_witness :
  nth (nth 0 (argsort Rleb [5; 1; 3]) 0%nat)
    (fst (optimise_annotations (fun g _ _ x0 _ _ _ => (x0, g)) (fun _ => 0)
            [5; 1; 3] 10000 0.01 0.00001 0.001)) 0
  = Np.min [5; 1; 3].
Proof.
  apply (optimise_pins_minimum (fun g _ _ x0 _ _ _ => (x0, g))
           (fun _ => 0) [5; 1; 3] 10000 0.01 0.00001 0.001).
  - simpl; lia.
  - exact range_5_1_3.
  - rewrite identity_result_5_1_3, normalised_length.
    apply sorted_positions_length.
  - rewrite identity_result_5_1_3.
    apply start_satisfies_constraints;
      [apply sorted_positions_ascending | exact range_5_1_3].
Defined.

(** X12. With three or more labels that do not all coincide, whenever
    the minimiser returns a vector of the right length that satisfies
    the constraints it was given, no returned position lies below the
    smallest input position. *)
Theorem optimise_never_below_minimum minimize g positions max_iters C k
  ftol :
  (3 <= List.length positions)%nat ->
  original_range (sorted_positions positions) <> 0 ->
  let x0 := normalised (sorted_positions positions) in
  let res := fst (minimiser_result minimize g (sorted_positions positions)
                    max_iters C k ftol) in
  let out :=
    fst (optimise_annotations minimize g positions max_iters C k ftol) in
  List.length res = List.length positions ->
  Forall (satisfied res) (layout_constraints x0) ->
  Forall (fun v => Np.min positions <= v) out.
Proof.
  intros Hn _ x0 res out Hlen Hsat.
  destruct (constraints_unpack res x0 Hsat) as (_ & _ & Hunit).
  apply optimise_output_above_minimum; try assumption.
  revert Hunit. apply Forall_impl. intros v Hv. lra.
Qed.

Lemma optimise_never_below_minimum_witness :
  Forall (fun v => Np.min [5; 1; 3] <= v)
    (fst (optimise_annotations (fun g _ _ x0 _ _ _ => (x0, g)) (fun _ => 0)
            [5; 1; 3] 10000 0.01 0.00001 0.001)).
Proof.
  apply (optimise_never_below_minimum (fun g _ _ x0 _ _ _ => (x0, g))
           (fun _ => 0) [5; 1; 3] 10000 0.01 0.00001 0.001).
  - simpl; lia.
  - exact range_5_1_3.
  - rewrite identity_result_5_1_3, normalised_length.
    apply sorted_positions_length.
  - rewrite identity_result_5_1_3.
    apply start_satisfies_constraints;
      [apply sorted_positions_ascending | exact range_5_1_3].
Defined.

(** ** Peak equivalence *)

Lemma Rltb_true_iff a b : Rltb a b = true <-> a < b.
Proof.
  unfold Rltb. destruct (Rlt_dec a b); split; auto; discriminate.
Qed.

Lemma equivalent_to_spec self other xtol ytol corr_tol ignore :
  equivalent_to self other xtol ytol corr_tol ignore = true
  <-> Rabs (Peak2D.x self - Peak2D.x other) < xtol
      /\ Rabs (Peak2D.y self - Peak2D.y other) < ytol
      /\ (ignore = true
          \/ Rabs (Peak2D.correlation_strength self
                   - Peak2D.correlation_strength other) < corr_tol).
Proof.
  unfold equivalent_to. rewrite !andb_true_iff, !Rltb_true_iff.
  destruct ignore.
  - intuition.
  - rewrite Rltb_true_iff. intuition discriminate.
Qed.

(** X13. Peak equivalence is symmetric: exchanging the two peaks does
    not change the answer, for any tolerances and either setting of
    [ignore_correlation_strength]. *)
Theorem equivalent_to_symmetric self other xtol ytol corr_tol ignore :
  equivalent_to self other xtol ytol corr_tol ignore
  = equivalent_to other self xtol ytol corr_tol ignore.
Proof.
  unfold equivalent_to.
  rewrite (Rabs_minus_sym (Peak2D.x self)), (Rabs_minus_sym (Peak2D.y self)),
    (Rabs_minus_sym (Peak2D.correlation_strength self)).
  reflexivity.
Qed.

(** X14. A peak is equivalent to itself exactly when the tolerances in
    use are positive: the comparisons are strict, so a tolerance of zero
    rejects even identical peaks. *)
Theorem equivalent_to_reflexive_iff self xtol ytol corr_tol ignore :
  equivalent_to self self xtol ytol corr_tol ignore = true
  <-> 0 < xtol /\ 0 < ytol /\ (ignore = true \/ 0 < corr_tol).
Proof.
  rewrite equivalent_to_spec, !Rminus_diag, Rabs_R0. reflexivity.
Qed.

(** X15. Peak equivalence is not transitive, whatever the positive
    tolerance: three peaks spaced [0.6 * xtol] apart along [x] are
    equivalent to their neighbours while the outer two are not
    equivalent. *)
Theorem equivalent_to_not_transitive xtol ytol corr_tol ignore :
  0 < xtol -> 0 < ytol -> 0 < corr_tol ->
  exists a b c,
    equivalent_to a b xtol ytol corr_tol ignore = true
    /\ equivalent_to b c xtol ytol corr_tol ignore = true
    /\ equivalent_to a c xtol ytol corr_tol ignore = false.
Proof.
  intros Hx Hy Hc.
  exists (Peak2D.mk 0 0 "a" "a" 1 "C0" None None),
         (Peak2D.mk (0.6 * xtol) 0 "b" "b" 1 "C0" None None),
         (Peak2D.mk (1.2 * xtol) 0 "c" "c" 1 "C0" None None).
  split; [|split].
  - apply equivalent_to_spec. simpl.
    rewrite !Rminus_diag, Rabs_R0.
    repeat split; auto.
    unfold Rabs. destruct (Rcase_abs _); lra.
  - apply equivalent_to_spec. simpl.
    rewrite !Rminus_diag, Rabs_R0.
    repeat split; auto.
    unfold Rabs. destruct (Rcase_abs _); lra.
  - apply not_true_is_false. intros H.
    apply equivalent_to_spec in H. simpl in H.
    destruct H as (H & _). revert H.
    unfold Rabs. destruct (Rcase_abs _); lra.
Qed.

Lemma equivalent_to_not_transitive_witness :
  exists a b c,
    equivalent_to a b 0.005 0.005 0.1 false = true
    /\ equivalent_to b c 0.005 0.005 0.1 false = true
    /\ equivalent_to a c 0.005 0.005 0.1 false = false.
Proof.
  apply (equivalent_to_not_transitive 0.005 0.005 0.1 false); lra.
Defined.

(** X16. Loosening never separates: two peaks that are equivalent with
    the correlation strength compared stay equivalent under any larger
    tolerances, and also when the correlation strength is ignored. *)
Theorem equivalent_to_monotone self other xtol ytol corr_tol xtol' ytol'
  corr_tol' ignore :
  equivalent_to self other xtol ytol corr_tol false = true ->
  xtol <= xtol' -> ytol <= ytol' -> corr_tol <= corr_tol' ->
  equivalent_to self other xtol' ytol' corr_tol' ignore = true.
Proof.
  intros H Hx Hy Hc.
  apply equivalent_to_spec in H.
  destruct H as (H1 & H2 & [H3|H3]); [discriminate|].
  apply equivalent_to_spec. split; [lra|]. split; [lra|].
  right. lra.
Qed.

Lemma close_peaks_equivalent :
  equivalent_to (Peak2D.mk 1 2 "H1" "C1" 1 "C0" None None)
    (Peak2D.mk 1.003 2.002 "H1" "C1" 1.05 "C0" None None)
    0.005 0.005 0.1 false = true.
Proof.
  apply equivalent_to_spec. simpl.
  repeat split; [| |right]; unfold Rabs; destruct (Rcase_abs _); lra.
Qed.

Lemma equivalent_to_monotone_witness :
  equivalent_to (Peak2D.mk 1 2 "H1" "C1" 1 "C0" None None)
    (Peak2D.mk 1.003 2.002 "H1" "C1" 1.05 "C0" None None)
    0.01 0.005 0.2 true = true.
Proof.
  apply (equivalent_to_monotone _ _ 0.005 0.005 0.1 0.01 0.005 0.2 true);
    [exact close_peaks_equivalent | lra | lra | lra].
Defined.

(** ** The intensity grid *)

Lemma has_shape_row {A} (M : list (list A)) rows cols i :
  has_shape M rows cols -> (i < rows)%nat ->
  List.length (nth i M []) = cols.
Proof.
  intros [Hr Hc] Hi. rewrite Forall_forall in Hc.
  apply Hc, nth_In. lia.
Qed.

Lemma zip_with2_shape {A B D} (f : A -> B -> D) M N rows cols :
  has_shape M rows cols -> has_shape N rows cols ->
  has_shape (Np.zip_with2 f M N) rows cols.
Proof.
  intros HM HN. pose proof HM as [HMr _]. pose proof HN as [HNr _].
  unfold Np.zip_with2. split.
  - rewrite zip_with_length. lia.
  - apply Forall_forall. intros row Hin.
    destruct (In_nth _ _ [] Hin) as (i & Hi & <-).
    rewrite zip_with_length in Hi.
    rewrite (nth_zip_with _ _ _ _ [] []) by lia.
    rewrite zip_with_length,
      (has_shape_row M rows cols i HM), (has_shape_row N rows cols i HN)
      by lia.
    apply Nat.min_id.
Qed.

Lemma zip_with2_entry (f : R -> R -> R) M N rows cols i j :
  has_shape M rows cols -> has_shape N rows cols ->
  (i < rows)%nat -> (j < cols)%nat ->
  Np.entry (Np.zip_with2 f M N) i j = f (Np.entry M i j) (Np.entry N i j).
Proof.
  intros HM HN Hi Hj. pose proof HM as [HMr _]. pose proof HN as [HNr _].
  unfold Np.entry, Np.zip_with2.
  rewrite (nth_zip_with _ _ _ _ [] []) by lia.
  apply (nth_zip_with f _ _ j 0 0 0).
  - rewrite (has_shape_row M rows cols i HM); lia.
  - rewrite (has_shape_row N rows cols i HN); lia.
Qed.

Lemma zeros_like_shape X rows cols :
  has_shape X rows cols -> has_shape (zeros_like X) rows cols.
Proof.
  intros [Hr Hc]. unfold zeros_like. split.
  - rewrite length_map. exact Hr.
  - rewrite Forall_map. revert Hc. apply Forall_impl.
    intros row Hrow. rewrite length_map. exact Hrow.
Qed.

Lemma zeros_like_entry X i j : Np.entry (zeros_like X) i j = 0.
Proof.
  unfold Np.entry, zeros_like.
  destruct (Nat.lt_ge_cases i (List.length X)) as [Hi|Hi].
  - rewrite (nth_map_in _ _ _ []) by exact Hi.
    destruct (Nat.lt_ge_cases j (List.length (nth i X []))) as [Hj|Hj].
    + rewrite (nth_map_in _ _ _ 0) by exact Hj. reflexivity.
    + apply nth_overflow. rewrite length_map. exact Hj.
  - rewrite (nth_overflow (map _ X)) by (rewrite length_map; exact Hi).
    destruct j; reflexivity.
Qed.

Lemma meshgrid_shapes xs ys :
  has_shape (fst (meshgrid xs ys)) (List.length ys) (List.length xs)
  /\ has_shape (snd (meshgrid xs ys)) (List.length ys) (List.length xs).
Proof.
  unfold meshgrid. simpl. split; split.
  - apply repeat_length.
  - apply Forall_forall. intros row Hin.
    apply repeat_spec in Hin. subst. reflexivity.
  - apply length_map.
  - rewrite Forall_map. apply Forall_forall. intros yi _.
    apply repeat_length.
Qed.

Lemma linspace_length start stop num :
  (0 <= num)%Z ->
  exists v, linspace start stop num = Returns v
            /\ List.length v = Z.to_nat num.
Proof.
  intros Hn. unfold linspace.
  destruct (Z.ltb_spec num 0); [lia|].
  eexists. split; [reflexivity|].
  destruct (Nat.ltb_spec 1 (Z.to_nat num)) as [Hlt|Hge].
  - rewrite set_last_length.
    + destruct (0 <? Z.to_nat num - 1)%nat;
        rewrite !length_map, length_seq; reflexivity.
    + destruct (Z.to_nat num) as [|m]; [lia|].
      destruct (0 <? S m - 1)%nat; simpl; discriminate.
  - destruct (0 <? Z.to_nat num - 1)%nat;
      rewrite !length_map, length_seq; reflexivity.
Qed.

Section IntensityFacts.

Variables (X Y : Np.matrix) (x_broadening y_broadening : R).
Variables (rows cols : nat).

Hypothesis X_shape : has_shape X rows cols.
Hypothesis Y_shape : has_shape Y rows cols.

Lemma gaussian_shape x0 y0 :
  has_shape (gaussian X x0 Y y0 x_broadening y_broadening) rows cols.
Proof. apply zip_with2_shape; assumption. Qed.

Lemma gaussian_entry x0 y0 i j :
  (i < rows)%nat -> (j < cols)%nat ->
  Np.entry (gaussian X x0 Y y0 x_broadening y_broadening) i j
  = kernel_at x0 y0 x_broadening y_broadening
      (Np.entry X i j) (Np.entry Y i j).
Proof.
  intros Hi Hj. unfold gaussian.
  rewrite (zip_with2_entry _ X Y rows cols) by assumption.
  reflexivity.
Qed.

Lemma add_peaks_accumulates broadening peaks Z Z' :
  has_shape Z rows cols ->
  add_peaks broadening X Y x_broadening y_broadening peaks Z = Returns Z' ->
  has_shape Z' rows cols
  /\ forall i j, (i < rows)%nat -> (j < cols)%nat ->
       Np.entry Z' i j
       = Np.entry Z i j
         + intensity_at peaks x_broadening y_broadening
             (Np.entry X i j) (Np.entry Y i j).
Proof.
  revert Z; induction peaks as [|peak rest IH]; intros Z HZ Hrun.
  - simpl in Hrun. inversion Hrun; subst. split; [exact HZ|].
    intros i j _ _. unfold intensity_at. simpl. ring.
  - cbn [add_peaks] in Hrun.
    assert (Hstep :
              add_peaks broadening X Y x_broadening y_broadening rest
                (add_scaled Z (Peak2D.correlation_strength peak)
                   (gaussian X (Peak2D.x peak) Y (Peak2D.y peak)
                      x_broadening y_broadening))
              = Returns Z').
    { destruct (String.eqb broadening "lorentzian"); [exact Hrun|].
      destruct (String.eqb broadening "gaussian"); [exact Hrun|].
      discriminate. }
    assert (Hshape :
              has_shape
                (add_scaled Z (Peak2D.correlation_strength peak)
                   (gaussian X (Peak2D.x peak) Y (Peak2D.y peak)
                      x_broadening y_broadening)) rows cols).
    { apply zip_with2_shape; [exact HZ | apply gaussian_shape]. }
    destruct (IH _ Hshape Hstep) as [HZ' Hent].
    split; [exact HZ'|].
    intros i j Hi Hj. rewrite Hent by assumption.
    unfold add_scaled.
    rewrite (zip_with2_entry _ Z _ rows cols)
      by (auto using gaussian_shape).
    rewrite gaussian_entry by assumption.
    unfold intensity_at. simpl. ring.
Qed.

End IntensityFacts.

Lemma contour_map_result peaks grid_size broadening x_broadening
  y_broadening xlims ylims x_min x_max y_min y_max :
  (0 <= grid_size)%Z ->
  peaks = [] \/ lower broadening = "gaussian"%string
  \/ lower broadening = "lorentzian"%string ->
  bounds_from xlims (map Peak2D.x peaks) x_min x_max ->
  bounds_from ylims (map Peak2D.y peaks) y_min y_max ->
  exists X Y Z,
    generate_contour_map peaks grid_size broadening x_broadening
      y_broadening xlims ylims = Returns (X, Y, Z)
    /\ has_shape X (Z.to_nat grid_size) (Z.to_nat grid_size)
    /\ has_shape Y (Z.to_nat grid_size) (Z.to_nat grid_size)
    /\ has_shape Z (Z.to_nat grid_size) (Z.to_nat grid_size)
    /\ forall i j, (i < Z.to_nat grid_size)%nat ->
         (j < Z.to_nat grid_size)%nat ->
         Np.entry Z i j
         = intensity_at peaks x_broadening y_broadening
             (Np.entry X i j) (Np.entry Y i j).
Proof.
  intros Hgs Hk Hx Hy. unfold generate_contour_map.
  rewrite (limits_bounds _ _ _ _ Hx), (limits_bounds _ _ _ _ Hy).
  cbn [bind].
  destruct (linspace_length (x_min - 5 * x_broadening)
              (x_max + 5 * x_broadening) grid_size Hgs) as (xs & -> & Hxl).
  destruct (linspace_length (y_min - 5 * y_broadening)
              (y_max + 5 * y_broadening) grid_size Hgs) as (ys & -> & Hyl).
  cbn [bind].
  destruct (meshgrid_shapes xs ys) as [HX HY].
  rewrite Hxl, Hyl in HX, HY.
  destruct (meshgrid xs ys) as [X Y] eqn:Hmesh. cbn [fst snd] in HX, HY.
  destruct (add_peaks_returns X Y x_broadening y_broadening
              (lower broadening) peaks (zeros_like X) Hk) as [Z' HZ'].
  rewrite HZ'. cbn [bind].
  destruct (add_peaks_accumulates X Y x_broadening y_broadening
              (Z.to_nat grid_size) (Z.to_nat grid_size) HX HY
              (lower broadening) peaks (zeros_like X) Z'
              (zeros_like_shape X _ _ HX) HZ') as [Hshape Hent].
  exists X, Y, Z'. repeat split; try apply HX; try apply HY;
    try apply Hshape.
  intros i j Hi Hj. rewrite Hent by assumption.
  rewrite zeros_like_entry. ring.
Qed.

(** X17. Every call of [generate_contour_map] with a non-negative grid
    size that gets past the kernel check (a recognised kernel, or no
    peaks) returns three grids of the same shape, [grid_size] rows of
    [grid_size] entries each. *)
Theorem contour_grids_square peaks grid_size broadening x_broadening
  y_broadening xlims ylims x_min x_max y_min y_max :
  (0 <= grid_size)%Z ->
  peaks = [] \/ lower broadening = "gaussian"%string
  \/ lower broadening = "lorentzian"%string ->
  bounds_from xlims (map Peak2D.x peaks) x_min x_max ->
  bounds_from ylims (map Peak2D.y peaks) y_min y_max ->
  exists X Y Z,
    generate_contour_map peaks grid_size broadening x_broadening
      y_broadening xlims ylims = Returns (X, Y, Z)
    /\ has_shape X (Z.to_nat grid_size) (Z.to_nat grid_size)
    /\ has_shape Y (Z.to_nat grid_size) (Z.to_nat grid_size)
    /\ has_shape Z (Z.to_nat grid_size) (Z.to_nat grid_size).
Proof.
  intros Hgs Hk Hx Hy.
  destruct (contour_map_result peaks grid_size broadening x_broadening
              y_broadening xlims ylims x_min x_max y_min y_max
              Hgs Hk Hx Hy) as (X & Y & Z & Hrun & HX & HY & HZ & _).
  exists X, Y, Z. auto.
Qed.

Lemma contour_grids_square_witness :
  exists X Y Z,
    generate_contour_map
      [Peak2D.mk 1 2 "H1" "C1" 1 "C0" None None;
       Peak2D.mk 3 7 "H2" "C2" 1 "C0" None None]
      1 "Lorentzian" 1 0.5 None (Some (0, 10)) = Returns (X, Y, Z)
    /\ has_shape X (Z.to_nat 1) (Z.to_nat 1)
    /\ has_shape Y (Z.to_nat 1) (Z.to_nat 1)
    /\ has_shape Z (Z.to_nat 1) (Z.to_nat 1).
Proof.
  apply (contour_grids_square
           [Peak2D.mk 1 2 "H1" "C1" 1 "C0" None None;
            Peak2D.mk 3 7 "H2" "C2" 1 "C0" None None]
           1 "Lorentzian" 1 0.5 None (Some (0, 10)) 1 3 0 10).
  - lia.
  - right. right. reflexivity.
  - simpl. split; [discriminate|]. split.
    + rewrite Rmin_left; lra.
    + rewrite Rmax_right; lra.
  - reflexivity.
Defined.

(** X18. The intensity grid is the superposition of the peaks: at every
    grid point, [Z] is the sum over the peaks of the correlation
    strength times the broadening kernel evaluated at that point's [X]
    and [Y] coordinates (zero when there are no peaks). *)
Theorem contour_intensity_superposition peaks grid_size broadening
  x_broadening y_broadening xlims ylims x_min x_max y_min y_max :
  (0 <= grid_size)%Z ->
  peaks = [] \/ lower broadening = "gaussian"%string
  \/ lower broadening = "lorentzian"%string ->
  bounds_from xlims (map Peak2D.x peaks) x_min x_max ->
  bounds_from ylims (map Peak2D.y peaks) y_min y_max ->
  exists X Y Z,
    generate_contour_map peaks grid_size broadening x_broadening
      y_broadening xlims ylims = Returns (X, Y, Z)
    /\ forall i j, (i < Z.to_nat grid_size)%nat ->
         (j < Z.to_nat grid_size)%nat ->
         Np.entry Z i j
         = Np.sum
             (map (fun peak =>
                     Peak2D.correlation_strength peak
                     * exp (- ((Np.entry X i j - Peak2D.x peak) ^ 2
                               / (2 * x_broadening ^ 2)
                               + (Np.entry Y i j - Peak2D.y peak) ^ 2
                                 / (2 * y_broadening ^ 2))))
                peaks).
Proof.
  intros Hgs Hk Hx Hy.
  destruct (contour_map_result peaks grid_size broadening x_broadening
              y_broadening xlims ylims x_min x_max y_min y_max
              Hgs Hk Hx Hy) as (X & Y & Z & Hrun & _ & _ & _ & Hent).
  exists X, Y, Z. split; [exact Hrun|].
  intros i j Hi Hj. rewrite Hent by assumption. reflexivity.
Qed.

Lemma contour_intensity_superposition_witness :
  exists X Y Z,
    generate_contour_map
      [Peak2D.mk 0 0 "H1" "C1" 1 "C0" None None;
       Peak2D.mk 10 10 "H2" "C2" 1 "C0" None None]
      50 "gaussian" 1 1 None None = Returns (X, Y, Z)
    /\ forall i j, (i < Z.to_nat 50)%nat -> (j < Z.to_nat 50)%nat ->
         Np.entry Z i j
         = Np.sum
             (map (fun peak =>
                     Peak2D.correlation_strength peak
                     * exp (- ((Np.entry X i j - Peak2D.x peak) ^ 2
                               / (2 * 1 ^ 2)
                               + (Np.entry Y i j - Peak2D.y peak) ^ 2
                                 / (2 * 1 ^ 2))))
                [Peak2D.mk 0 0 "H1" "C1" 1 "C0" None None;
                 Peak2D.mk 10 10 "H2" "C2" 1 "C0" None None]).
Proof.
  apply (contour_intensity_superposition
           [Peak2D.mk 0 0 "H1" "C1" 1 "C0" None None;
            Peak2D.mk 10 10 "H2" "C2" 1 "C0" None None]
           50 "gaussian" 1 1 None None 0 10 0 10).
  - lia.
  - right. left. reflexivity.
  - simpl. split; [discriminate|]. split.
    + rewrite Rmin_left; lra.
    + rewrite Rmax_right; lra.
  - simpl. split; [discriminate|]. split.
    + rewrite Rmin_left; lra.
    + rewrite Rmax_right; lra.
Defined.

(** *** The kernel name *)

Lemma lower_ascii_idempotent c : lower_ascii (lower_ascii c) = lower_ascii c.
Proof.
  destruct c as [[] [] [] [] [] [] [] []]; reflexivity.
Qed.

Lemma lower_idempotent s : lower (lower s) = lower s.
Proof.
  induction s as [|c s IH]; simpl; [reflexivity|].
  rewrite lower_ascii_idempotent, IH. reflexivity.
Qed.

(** X19. The kernel name is matched without regard to case: a call
    with any spelling of a name behaves exactly like the call with the
    lowercased name, in what it returns and in what it raises. *)
Theorem kernel_name_case_insensitive peaks grid_size broadening
  x_broadening y_broadening xlims ylims :
  generate_contour_map peaks grid_size broadening x_broadening y_broadening
    xlims ylims
  = generate_contour_map peaks grid_size (lower broadening) x_broadening
      y_broadening xlims ylims.
Proof.
  unfold generate_contour_map. rewrite lower_idempotent. reflexivity.
Qed.

(** *** Size of the kernel and of the intensity *)

Lemma kernel_at_bounds x0 y0 wx wy x y :
  wx <> 0 -> wy <> 0 ->
  0 < kernel_at x0 y0 wx wy x y <= 1.
Proof.
  intros Hwx Hwy. unfold kernel_at.
  set (q := (x - x0) ^ 2 / (2 * wx ^ 2) + (y - y0) ^ 2 / (2 * wy ^ 2)).
  assert (Hq : 0 <= q).
  { unfold q. apply Rplus_le_le_0_compat; unfold Rdiv;
      (apply Rmult_le_pos; [apply pow2_ge_0|]);
      apply Rlt_le, Rinv_0_lt_compat;
      apply Rmult_lt_0_compat; try lra;
      apply Rlt_0_sqr in Hwx; apply Rlt_0_sqr in Hwy;
      unfold Rsqr in *; simpl; lra. }
  split; [apply exp_pos|].
  rewrite exp_Ropp.
  pose proof (exp_ineq1_le q) as Hexp.
  rewrite <- Rinv_1. apply Rinv_le_contravar; lra.
Qed.

Lemma kernel_at_centre x0 y0 wx wy : kernel_at x0 y0 wx wy x0 y0 = 1.
Proof.
  unfold kernel_at. rewrite !Rminus_diag.
  replace (- (0 ^ 2 / (2 * wx ^ 2) + 0 ^ 2 / (2 * wy ^ 2))) with 0
    by (unfold Rdiv; ring).
  apply exp_0.
Qed.

(** X20. For non-zero broadening factors every value of the Gaussian
    kernel lies between [0] and [1], both included, and the value at a
    grid point that coincides with the peak centre is [1]. *)
Theorem gaussian_values_bounded X Y x0 y0 x_broadening y_broadening rows
  cols i j :
  has_shape X rows cols -> has_shape Y rows cols ->
  (i < rows)%nat -> (j < cols)%nat ->
  x_broadening <> 0 -> y_broadening <> 0 ->
  0 <= Np.entry (gaussian X x0 Y y0 x_broadening y_broadening) i j <= 1
  /\ (Np.entry X i j = x0 -> Np.entry Y i j = y0 ->
      Np.entry (gaussian X x0 Y y0 x_broadening y_broadening) i j = 1).
Proof.
  intros HX HY Hi Hj Hwx Hwy.
  rewrite (gaussian_entry X Y x_broadening y_broadening rows cols HX HY)
    by assumption.
  split.
  - pose proof (kernel_at_bounds x0 y0 x_broadening y_broadening
                  (Np.entry X i j) (Np.entry Y i j) Hwx Hwy).
    lra.
  - intros -> ->. apply kernel_at_centre.
Qed.

Lemma gaussian_values_bounded_witness :
  0 <= Np.entry (gaussian [[0; 1]; [0; 1]] 1 [[2; 2]; [3; 3]] 3 1 0.5) 1 1
    <= 1
  /\ (Np.entry [[0; 1]; [0; 1]] 1 1 = 1 ->
      Np.entry [[2; 2]; [3; 3]] 1 1 = 3 ->
      Np.entry (gaussian [[0; 1]; [0; 1]] 1 [[2; 2]; [3; 3]] 3 1 0.5) 1 1
      = 1).
Proof.
  apply (gaussian_values_bounded [[0; 1]; [0; 1]] [[2; 2]; [3; 3]] 1 3
           1 0.5 2 2 1 1);
    try (split; [reflexivity | repeat constructor]); try lia; lra.
Defined.

Lemma intensity_at_bounds peaks wx wy x y :
  wx <> 0 -> wy <> 0 ->
  Forall (fun peak => 0 <= Peak2D.correlation_strength peak) peaks ->
  0 <= intensity_at peaks wx wy x y
  <= Np.sum (map Peak2D.correlation_strength peaks).
Proof.
  intros Hwx Hwy Hs. unfold intensity_at.
  induction Hs as [|peak rest Hp Hrest IH]; simpl; [lra|].
  pose proof (kernel_at_bounds (Peak2D.x peak) (Peak2D.y peak) wx wy x y
                Hwx Hwy) as Hk.
  nra.
Qed.

(** X21. When no peak has a negative correlation strength and the
    broadening factors are non-zero, every value of the returned
    intensity grid lies between [0] and the sum of the correlation
    strengths. *)
Theorem contour_intensity_bounded peaks grid_size broadening x_broadening
  y_broadening xlims ylims x_min x_max y_min y_max :
  (0 <= grid_size)%Z ->
  peaks = [] \/ lower broadening = "gaussian"%string
  \/ lower broadening = "lorentzian"%string ->
  bounds_from xlims (map Peak2D.x peaks) x_min x_max ->
  bounds_from ylims (map Peak2D.y peaks) y_min y_max ->
  x_broadening <> 0 -> y_broadening <> 0 ->
  Forall (fun peak => 0 <= Peak2D.correlation_strength peak) peaks ->
  exists X Y Z,
    generate_contour_map peaks grid_size broadening x_broadening
      y_broadening xlims ylims = Returns (X, Y, Z)
    /\ forall i j, (i < Z.to_nat grid_size)%nat ->
         (j < Z.to_nat grid_size)%nat ->
         0 <= Np.entry Z i j
         <= Np.sum (map Peak2D.correlation_strength peaks).
Proof.
  intros Hgs Hk Hx Hy Hwx Hwy Hs.
  destruct (contour_map_result peaks grid_size broadening x_broadening
              y_broadening xlims ylims x_min x_max y_min y_max
              Hgs Hk Hx Hy) as (X & Y & Z & Hrun & _ & _ & _ & Hent).
  exists X, Y, Z. split; [exact Hrun|].
  intros i j Hi Hj. rewrite Hent by assumption.
  apply intensity_at_bounds; assumption.
Qed.

Lemma contour_intensity_bounded_witness :
  exists X Y Z,
    generate_contour_map
      [Peak2D.mk 0 0 "H1" "C1" 1 "C0" None None;
       Peak2D.mk 10 10 "H2" "C2" 0.5 "C0" None None]
      50 "gaussian" 1 1 None None = Returns (X, Y, Z)
    /\ forall i j, (i < Z.to_nat 50)%nat -> (j < Z.to_nat 50)%nat ->
         0 <= Np.entry Z i j
         <= Np.sum (map Peak2D.correlation_strength
                      [Peak2D.mk 0 0 "H1" "C1" 1 "C0" None None;
                       Peak2D.mk 10 10 "H2" "C2" 0.5 "C0" None None]).
Proof.
  apply (contour_intensity_bounded
           [Peak2D.mk 0 0 "H1" "C1" 1 "C0" None None;
            Peak2D.mk 10 10 "H2" "C2" 0.5 "C0" None None]
           50 "gaussian" 1 1 None None 0 10 0 10).
  - lia.
  - right. left. reflexivity.
  - simpl. split; [discriminate|]. split.
    + rewrite Rmin_left; lra.
    + rewrite Rmax_right; lra.
  - simpl. split; [discriminate|]. split.
    + rewrite Rmin_left; lra.
    + rewrite Rmax_right; lra.
  - lra.
  - lra.
  - repeat constructor; simpl; lra.
Defined.

(** ** Forces in closed form *)

(** X23. Two distinct labels whose gap is at or below [1e-8] exert no
    force on each other: the corresponding off-diagonal entries of the
    force matrix are exactly zero on every input. *)
Theorem close_pairs_feel_no_force positions positions_original C k g i j :
  List.length positions_original = List.length positions ->
  (i < List.length positions)%nat -> (j < List.length positions)%nat ->
  i <> j ->
  Rabs (nth i positions 0 - nth j positions 0) <= 1e-8 ->
  Np.entry (fst (get_force_matrix positions positions_original C k g)) i j
  = 0.
Proof.
  intros Hlen Hi Hj Hij Hgap.
  apply (coincident_entry_zero positions positions_original C k g i j);
    assumption.
Qed.

Lemma close_pairs_feel_no_force_witness :
  Np.entry (fst (get_force_matrix [0; 0.5; 0.5] [0; 0.4; 1] 0.01 0.00001
                   (fun _ => 7))) 1 2 = 0.
Proof.
  apply (close_pairs_feel_no_force [0; 0.5; 0.5] [0; 0.4; 1] 0.01 0.00001
           (fun _ => 7) 1%nat 2%nat); simpl; try lia.
  rewrite Rminus_diag, Rabs_R0. lra.
Defined.

Lemma total_force_closed_form positions positions_original C k g i :
  List.length positions_original = List.length positions ->
  (i < List.length positions)%nat ->
  nth i (fst (get_total_forces positions positions_original C k g)) 0
  = 2 * k * (nth i positions 0 - nth i positions_original 0)
    - C * Np.sum
            (map (fun j =>
                    if Nat.eqb j i then 0
                    else if Rgt_dec
                              (Rabs (nth i positions 0 - nth j positions 0))
                              gap_eps
                         then (nth i positions 0 - nth j positions 0)
                              / Rabs (nth i positions 0
                                      - nth j positions 0) ^ 4
                         else 0)
               (seq 0 (List.length positions))).
Proof.
  intros Hlen Hi. rewrite total_forces_entry by assumption.
  set (phi := fun j =>
                if Nat.eqb j i then 0
                else if Rgt_dec
                          (Rabs (nth i positions 0 - nth j positions 0))
                          gap_eps
                     then (nth i positions 0 - nth j positions 0)
                          / Rabs (nth i positions 0 - nth j positions 0) ^ 4
                     else 0).
  set (spring := -2 * k * (nth i positions 0 - nth i positions_original 0)).
  rewrite (sum_map_ext_in
             (force_entry positions positions_original C k i)
             (fun j => (if Nat.eqb j i then spring else 0) + C * phi j)).
  - rewrite sum_map_plus, sum_point_in by lia.
    rewrite <- (map_map phi (Rmult C)), sum_scale.
    unfold spring. ring.
  - intros j Hj. unfold force_entry, Np.gtb, phi, spring.
    rewrite (Nat.eqb_sym i j).
    destruct (Nat.eqb_spec j i) as [->|Hne]; [ring|].
    destruct (Rgt_dec _ gap_eps); unfold Rdiv; ring.
Qed.

(** X24. Entry [i] of [get_total_forces] in closed form: the spring
    term [2 * k * (pos_i - original_i)] minus [C] times the sum, over
    the other labels [j] further than [1e-8] from label [i], of
    [(pos_i - pos_j) / |pos_i - pos_j|^4]. *)
Theorem total_force_formula positions positions_original C k g i :
  List.length positions_original = List.length positions ->
  (i < List.length positions)%nat ->
  nth i (fst (get_total_forces positions positions_original C k g)) 0
  = 2 * k * (nth i positions 0 - nth i positions_original 0)
    - C * Np.sum
            (map (fun j =>
                    if Nat.eqb j i then 0
                    else if Rgt_dec
                              (Rabs (nth i positions 0 - nth j positions 0))
                              1e-8
                         then (nth i positions 0 - nth j positions 0)
                              / Rabs (nth i positions 0
                                      - nth j positions 0) ^ 4
                         else 0)
               (seq 0 (List.length positions))).
Proof.
  apply total_force_closed_form.
Qed.

Lemma total_force_formula_witness :
  nth 1 (fst (get_total_forces [0; 2; 3] [0; 1; 3] 0.01 0.00001
                (fun _ => 7))) 0
  = 2 * 0.00001 * (nth 1 [0; 2; 3] 0 - nth 1 [0; 1; 3] 0)
    - 0.01 * Np.sum
               (map (fun j =>
                       if Nat.eqb j 1 then 0
                       else if Rgt_dec
                                 (Rabs (nth 1 [0; 2; 3] 0
                                        - nth j [0; 2; 3] 0)) 1e-8
                            then (nth 1 [0; 2; 3] 0 - nth j [0; 2; 3] 0)
                                 / Rabs (nth 1 [0; 2; 3] 0
                                         - nth j [0; 2; 3] 0) ^ 4
                            else 0)
                  (seq 0 (List.length [0; 2; 3]))).
Proof.
  apply (total_force_formula [0; 2; 3] [0; 1; 3] 0.01 0.00001 (fun _ => 7)
           1%nat); simpl; lia.
Defined.
